(** * liveweb.filetools: a shallow embedding and its verified properties

    The module under study is [src/liveweb/filetools.py] (Python 2):
    - [SpyFile], a tee around a readable stream that mirrors what is read
      into a second file object and enforces a cumulative size limit;
    - [MemFile], a StringIO-like buffer that moves to a temporary file once
      a size threshold would be crossed;
    - [fileiter], a generator over a fixed-size region of a file.

    Python 2 [str] values are byte strings: they are [list byte] here.
    Python integers are unbounded: they are [Z].  Exceptions are an explicit
    [result]; a method that raises keeps the mutations it made before the
    raise, so every method returns its final state next to its result. *)

From Stdlib Require Import ZArith String Ascii List Lia Bool.
From Stdlib Require Import Init.Byte.
From stdpp Require Import base gmap list strings.
From stdpp Require Import pretty.

Local Open Scope Z_scope.

(** ** Values, exceptions *)

Abbreviation bytes := (list byte).

(** Python's [len] on a byte string. *)
Definition len (t : bytes) : Z := Z.of_nat (length t).

Definition b (s : string) : bytes := list_byte_of_string s.
Definition NL : byte := x0a.

Inductive exn :=
| SizeLimitExceeded (seen limit : Z)  (* class SizeLimitExceeded(IOError) *)
| ValueError                          (* I/O operation on closed file; bad int() literal *)
| TypeError
| OSError
| AttributeError
| DanglingRef.  (* the model's answer for a location that is not in the
                   heap; no Python program can produce one *)

Inductive result (A : Type) :=
| Ok (a : A)
| Raise (e : exn).
Arguments Ok {A} a.
Arguments Raise {A} e.

Definition is_ok {A} (r : result A) : bool :=
  match r with Ok _ => true | Raise _ => false end.

Definition is_size_limit {A} (r : result A) : bool :=
  match r with Raise (SizeLimitExceeded _ _) => true | _ => false end.

(** The values [max_size] can hold: [None] (the default), an integer, or
    text (a limit read from configuration). *)
Inductive pyval :=
| PyNone
| PyInt (z : Z)
| PyStr (s : string).

(** Python truth value, as [if self.max_size:] tests it. *)
Definition truthy (v : pyval) : bool :=
  match v with
  | PyNone => false
  | PyInt z => negb (z =? 0)
  | PyStr EmptyString => false
  | PyStr (String _ _) => true
  end.

(** [int(s)] on a [str], CPython 2 ([PyInt_FromString], base 10): blanks,
    an optional sign, blanks, one or more decimal digits, blanks. *)
Definition is_space (a : ascii) : bool :=
  let n := nat_of_ascii a in ((n =? 32) || ((9 <=? n) && (n <=? 13)))%nat.

Definition digit_val (a : ascii) : option Z :=
  let n := nat_of_ascii a in
  if ((48 <=? n) && (n <=? 57))%nat then Some (Z.of_nat (n - 48)) else None.

Fixpoint skip_space (s : string) : string :=
  match s with
  | String a s' => if is_space a then skip_space s' else s
  | EmptyString => s
  end.

Fixpoint digits (acc : Z) (s : string) : Z * string :=
  match s with
  | String a s' =>
      match digit_val a with
      | Some d => digits (10 * acc + d) s'
      | None => (acc, s)
      end
  | EmptyString => (acc, s)
  end.

Definition int_of_str (s : string) : result Z :=
  let s1 := skip_space s in
  let '(neg, s2) :=
    match s1 with
    | String "-"%char r => (true, r)
    | String "+"%char r => (false, r)
    | _ => (false, s1)
    end in
  let s3 := skip_space s2 in
  match s3 with
  | String a _ =>
      match digit_val a with
      | Some _ =>
          let '(v, rest) := digits 0 s3 in
          match skip_space rest with
          | EmptyString => Ok (if neg : bool then - v else v)
          | String _ _ => Raise ValueError
          end
      | None => Raise ValueError
      end
  | EmptyString => Raise ValueError
  end.

(** Python's [int(v)]. *)
Definition py_int (v : pyval) : result Z :=
  match v with
  | PyNone => Raise TypeError
  | PyInt z => Ok z
  | PyStr s => int_of_str s
  end.

(** ** Methods: state passing with exceptions

    A method is a function of the state [S] it may mutate; it returns or
    raises, and hands back the state either way. *)

Definition M (S A : Type) : Type := S -> result A * S.

Definition ret {S A} (a : A) : M S A := fun st => (Ok a, st).

Definition raise {S A} (e : exn) : M S A := fun st => (Raise e, st).

Definition bind {S A B} (m : M S A) (k : A -> M S B) : M S B :=
  fun st =>
    match m st with
    | (Ok a, st') => k a st'
    | (Raise e, st') => (Raise e, st')
    end.

Definition get {S} : M S S := fun st => (Ok st, st).

Notation "x <~ m ;; k" := (bind m (fun x => k))
  (at level 100, m at next level, right associativity).
Notation "m ;;; k" := (bind m (fun _ => k))
  (at level 100, right associativity).

(** ** The data source: an open readable stream over a byte sequence

    [src_data] is the whole byte sequence S, [src_pos] the number of bytes
    already handed out, and [src_calls] the requests the stream has
    received (ghost state: it lets a theorem speak about what was asked). *)

Inductive src_call :=
| SrcRead (n : option Z)
| SrcReadline (n : option Z).

Record Source := mkSource {
  src_data : bytes;
  src_pos : nat;
  src_calls : list src_call
}.

Definition source (S : bytes) : Source := mkSource S 0 [].

Definition remaining (f : Source) : bytes := drop (src_pos f) (src_data f).
Definition consumed (f : Source) : bytes := take (src_pos f) (src_data f).

(** How many of [avail] bytes a request for [n] takes: everything when the
    size is omitted or negative. *)
Definition clip (n : option Z) (avail : nat) : nat :=
  match n with
  | None => avail
  | Some z => if z <? 0 then avail else Nat.min (Z.to_nat z) avail
  end.

(** Length of the first line of [l], terminator included. *)
Fixpoint line_len (l : bytes) : nat :=
  match l with
  | [] => 0%nat
  | c :: l' => if Byte.eqb c NL then 1%nat else S (line_len l')
  end.

Definition src_take (k : nat) (c : src_call) (f : Source) : bytes * Source :=
  let text := take k (remaining f) in
  (text, mkSource (src_data f) (src_pos f + length text) (src_calls f ++ [c])).

(** [fileobj.read([n])] *)
Definition src_read (n : option Z) (f : Source) : bytes * Source :=
  src_take (clip n (length (remaining f))) (SrcRead n) f.

(** [fileobj.readline([n])] *)
Definition src_readline (n : option Z) (f : Source) : bytes * Source :=
  src_take (clip n (line_len (remaining f))) (SrcReadline n) f.

(** ** The sinks: shared file objects in a heap

    The spy object is passed in by the caller and may be replaced while the
    old one is still referenced elsewhere, so sinks live in a heap and a
    [SpyFile] holds a location.  A sink is represented by the method calls
    it has accepted; writing to or flushing a closed file object raises
    [ValueError], closing it again does not. *)

Inductive sink_call :=
| SkWrite (t : bytes)
| SkFlush
| SkClose.

Abbreviation Sink := (list sink_call).
Abbreviation loc := nat.
Abbreviation Heap := (gmap nat (list sink_call)).

Definition is_close (c : sink_call) : bool :=
  match c with SkClose => true | _ => false end.

Definition sk_closed (s : Sink) : bool := existsb is_close s.

Fixpoint sk_written (s : Sink) : bytes :=
  match s with
  | [] => []
  | SkWrite t :: s' => t ++ sk_written s'
  | _ :: s' => sk_written s'
  end.

Definition sink_do (c : sink_call) (l : loc) (h : Heap) : result unit * Heap :=
  match h !! l with
  | None => (Raise DanglingRef, h)
  | Some s =>
      if sk_closed s && negb (is_close c)
      then (Raise ValueError, h)
      else (Ok tt, <[l := s ++ [c]]> h)
  end.

(** A sink that exists and is not closed. *)
Definition sink_open (h : Heap) (l : loc) : bool :=
  match h !! l with
  | Some s => negb (sk_closed s)
  | None => false
  end.

(** Everything written to the sink at [l] so far. *)
Definition written (h : Heap) (l : loc) : bytes :=
  match h !! l with
  | Some s => sk_written s
  | None => []
  end.

(** [StringIO()]: a fresh, empty, open file object. *)
Definition new_StringIO (h : Heap) : loc * Heap :=
  let l := fresh (dom h) in (l, <[l := []]> h).

(** ** SpyFile *)

Record SpyFile := mkSpyFile {
  fileobj : Source;
  buf : loc;
  max_size : pyval;
  current_size : Z
}.

(** The state a method runs in: the object itself and the heap. *)
Definition St : Type := SpyFile * Heap.

Definition self : M St SpyFile := fun st => (Ok st.1, st).

Definition src_lift (rd : Source -> bytes * Source) : M St bytes :=
  fun '(sf, h) =>
    let '(text, f') := rd (fileobj sf) in
    (Ok text, (mkSpyFile f' (buf sf) (max_size sf) (current_size sf), h)).

Definition buf_do (c : sink_call) : M St unit :=
  fun '(sf, h) => let '(r, h') := sink_do c (buf sf) h in (r, (sf, h')).

Definition add_current_size (k : Z) : M St unit :=
  fun '(sf, h) =>
    (Ok tt, (mkSpyFile (fileobj sf) (buf sf) (max_size sf) (current_size sf + k), h)).

Definition set_buf (l : loc) : M St unit :=
  fun '(sf, h) =>
    (Ok tt, (mkSpyFile (fileobj sf) l (max_size sf) (current_size sf), h)).

(** Building the exception's message applies [%d] to [self.max_size]; that
    raises [TypeError] when the limit is text. *)
Definition size_limit_exceeded (cur : Z) (ms : pyval) : exn :=
  match ms with
  | PyInt m => SizeLimitExceeded cur m
  | _ => TypeError
  end.

(** [SpyFile._check_size] *)
Definition _check_size : M St unit :=
  sf <~ self ;;
  if truthy (max_size sf) then
    match py_int (max_size sf) with
    | Ok m =>
        if m <? current_size sf
        then raise (size_limit_exceeded (current_size sf) (max_size sf))
        else ret tt
    | Raise e => raise e
    end
  else ret tt.

(** [SpyFile.__init__]: [self.buf = spy or StringIO()] (a file object is
    always true). *)
Definition SpyFile_init (f : Source) (spy : option loc) (ms : pyval)
    (h : Heap) : St :=
  match spy with
  | Some l => (mkSpyFile f l ms 0, h)
  | None => let '(l, h') := new_StringIO h in (mkSpyFile f l ms 0, h')
  end.

(** [spy(fileobj, spyobj, max_size)] *)
Definition spy (f : Source) (spyobj : option loc) (ms : pyval) (h : Heap) : St :=
  SpyFile_init f spyobj ms h.

(** [SpyFile.read] *)
Definition read (a : option Z) : M St bytes :=
  text <~ src_lift (src_read a) ;;
  buf_do (SkWrite text) ;;;
  add_current_size (len text) ;;;
  _check_size ;;;
  ret text.

(** [SpyFile.readline] *)
Definition readline (a : option Z) : M St bytes :=
  text <~ src_lift (src_readline a) ;;
  buf_do (SkWrite text) ;;;
  add_current_size (len text) ;;;
  _check_size ;;;
  ret text.

(** [SpyFile.change_spy] *)
Definition change_spy (new : loc) : M St unit :=
  buf_do SkFlush ;;;
  buf_do SkClose ;;;
  set_buf new.

(** A caller's requests.  [run] performs them one after the other and keeps
    what each one gave back: the bytes it returned or the exception it
    raised (a caller may catch it and go on). *)
Inductive call :=
| Read (n : option Z)
| Readline (n : option Z).

Definition do_call (c : call) : M St bytes :=
  match c with
  | Read n => read n
  | Readline n => readline n
  end.

(** What the source itself answers to a request. *)
Definition src_answer (c : call) (f : Source) : bytes * Source :=
  match c with
  | Read n => src_read n f
  | Readline n => src_readline n f
  end.

Fixpoint run (cs : list call) (st : St) : list (result bytes) * St :=
  match cs with
  | [] => ([], st)
  | c :: cs' =>
      let '(r, st1) := do_call c st in
      let '(rs, st2) := run cs' st1 in
      (r :: rs, st2)
  end.

(** The bytes the calls returned to their caller, in order. *)
Fixpoint returned (rs : list (result bytes)) : bytes :=
  match rs with
  | [] => []
  | Ok t :: rs' => t ++ returned rs'
  | Raise _ :: rs' => returned rs'
  end.

Inductive op :=
| Call (c : call)
| ChangeSpy (l : loc).

Definition do_op (o : op) (st : St) : option (result bytes) * St :=
  match o with
  | Call c => let '(r, st') := do_call c st in (Some r, st')
  | ChangeSpy l => let '(_, st') := change_spy l st in (None, st')
  end.

(** Like [run], with sink changes in between; only the outcomes of the
    read and readline calls are kept. *)
Fixpoint exec (os : list op) (st : St) : list (result bytes) * St :=
  match os with
  | [] => ([], st)
  | o :: os' =>
      let '(r, st1) := do_op o st in
      let '(rs, st2) := exec os' st1 in
      (match r with Some x => x :: rs | None => rs end, st2)
  end.

Definition hello_world : bytes := b "hello" ++ [NL] ++ b "world" ++ [NL].

(** [_check_size] as a function of the two attributes it reads. *)
Definition check (ms : pyval) (cur : Z) : result unit :=
  if truthy ms then
    match py_int ms with
    | Ok m => if m <? cur then Raise (size_limit_exceeded cur ms) else Ok tt
    | Raise e => Raise e
    end
  else Ok tt.

(** The limit is in force and has been crossed. *)
Definition tripped (sf : SpyFile) : bool :=
  match max_size sf with
  | PyInt m => negb (m =? 0) && (m <? current_size sf)
  | _ => false
  end.

(** The outcomes the size limit prescribes for a sequence of calls, in the
    words of the specification: a call fails exactly when the cumulative
    count it reaches is greater than [M]. *)
Fixpoint limit_outcomes (M cur : Z) (f : Source) (cs : list call)
    : list (result bytes) :=
  match cs with
  | [] => []
  | c :: cs' =>
      let '(t, f') := src_answer c f in
      let cur' := cur + len t in
      (if M <? cur' then Raise (SizeLimitExceeded cur' M) else Ok t)
        :: limit_outcomes M cur' f' cs'
  end.

(** ** MemFile

    The two backings.  [StringIO] is a cStringIO output object: contents
    and position.  [File] is a Python 2 [file] on an open descriptor. *)

Record StringIO := mkStringIO {
  sio_buf : bytes;
  sio_pos : nat
}.

Record File := mkFile {
  f_fd : nat;
  f_name : string;
  f_data : bytes;
  f_pos : nat
}.

(** The operating system as [MemFile] sees it: directory entries (paths as
    seen from the working directory), open descriptors, and the records
    handed to [logging]. *)
Record World := mkWorld {
  fs : gset string;
  fds : gset nat;
  log : list string
}.

(** Writing [data] at offset [pos]: bytes are overwritten in place and the
    contents grow as needed (a gap left by a seek past the end reads as
    zero bytes). *)
Definition write_at (pos : nat) (data old : bytes) : bytes :=
  take pos old ++ replicate (pos - length old) x00 ++ data
    ++ drop (pos + length data) old.

Definition sio_write (data : bytes) (s : StringIO) : StringIO :=
  mkStringIO (write_at (sio_pos s) data (sio_buf s)) (sio_pos s + length data).

Definition file_write (data : bytes) (f : File) : File :=
  mkFile (f_fd f) (f_name f) (write_at (f_pos f) data (f_data f))
    (f_pos f + length data).

(** [tempfile.TemporaryFile(dir=, prefix=, suffix=)] on POSIX (CPython 2,
    Lib/tempfile.py): [mkstemp] creates the file, [os.unlink] removes its
    directory entry at once, and [os.fdopen(fd)] is returned.  So the
    directory is left as it was, one more descriptor is open, and the
    [name] attribute of the result is the string "<fdopen>", not a path.
    (Elsewhere [TemporaryFile] is [NamedTemporaryFile], whose result is
    not a [file] instance, so [in_memory] would never turn false.) *)
Definition TemporaryFile (dir : option string) (pre suf : string) (w : World)
    : File * World :=
  let fd := fresh (fds w) in
  (mkFile fd "<fdopen>" [] 0, mkWorld (fs w) ({[fd]} ∪ fds w) (log w)).

(** [os.unlink(path)] *)
Definition os_unlink (path : string) (w : World) : result unit * World :=
  if bool_decide (path ∈ fs w)
  then (Ok tt, mkWorld (fs w ∖ {[path]}) (fds w) (log w))
  else (Raise OSError, w).

(** [logging.info(fmt, arg)] *)
Definition logging_info (msg : string) (w : World) : World :=
  mkWorld (fs w) (fds w) (log w ++ [msg]).

Module Mem.

Inductive fileobject :=
| InMemory (s : StringIO)
| OnDisk (f : File).

Record MemFile := mkMemFile {
  maxsize : Z;
  tmpdir : option string;
  prefix : string;
  suffix : string;
  _fileobj : fileobject
}.

Definition St : Type := MemFile * World.

(** [MemFile.__init__] *)
Definition init (maxsize : Z) (tmpdir : option string) (prefix suffix : string)
    : MemFile :=
  mkMemFile maxsize tmpdir prefix suffix (InMemory (mkStringIO [] 0)).

(** [MemFile(maxsize)] with the other arguments at their defaults. *)
Definition new (maxsize : Z) : MemFile := init maxsize None "memfile-" ".tmp".

Definition default_maxsize : Z := 1024 * 1024.

Definition set_fileobj (fo : fileobject) : M St unit :=
  fun '(m, w) =>
    (Ok tt, (mkMemFile (maxsize m) (tmpdir m) (prefix m) (suffix m) fo, w)).

(** [MemFile.in_memory]: [not isinstance(self._fileobj, file)] *)
Definition in_memory (m : MemFile) : bool :=
  match _fileobj m with
  | InMemory _ => true
  | OnDisk _ => false
  end.

(** Attributes found through [__getattr__] on the current backing. *)
Definition tell (m : MemFile) : Z :=
  match _fileobj m with
  | InMemory s => Z.of_nat (sio_pos s)
  | OnDisk f => Z.of_nat (f_pos f)
  end.

(** [self._fileobj.getvalue()]: a [file] has no such attribute. *)
Definition getvalue : M St bytes :=
  fun '(m, w) =>
    match _fileobj m with
    | InMemory s => (Ok (sio_buf s), (m, w))
    | OnDisk _ => (Raise AttributeError, (m, w))
    end.

(** [self._fileobj.write(data)] *)
Definition fileobj_write (data : bytes) : M St unit :=
  fun '(m, w) =>
    set_fileobj
      match _fileobj m with
      | InMemory s => InMemory (sio_write data s)
      | OnDisk f => OnDisk (file_write data f)
      end (m, w).

(** [MemFile._open_tmpfile] *)
Definition _open_tmpfile : M St File :=
  fun '(m, w) =>
    let '(f, w') := TemporaryFile (tmpdir m) (prefix m) (suffix m) w in
    (Ok f, (m, w')).

(** [MemFile._switch_to_disk] *)
Definition _switch_to_disk : M St unit :=
  content <~ getvalue ;;
  f <~ _open_tmpfile ;;
  set_fileobj (OnDisk f) ;;;
  fileobj_write content.

(** [MemFile.write] *)
Definition write (data : bytes) : M St unit :=
  m <~ get ;;
  (if in_memory m.1 && (maxsize m.1 <? tell m.1 + len data)
   then _switch_to_disk
   else ret tt) ;;;
  fileobj_write data.

(** [MemFile.writelines] *)
Fixpoint writelines (lines : list bytes) : M St unit :=
  match lines with
  | [] => ret tt
  | line :: lines' => write line ;;; writelines lines'
  end.

(** [MemFile.close]; a file object is always true, so the guard is
    [not self.in_memory()]. *)
Definition close : M St unit :=
  m <~ get ;;
  match _fileobj m.1 with
  | OnDisk f =>
      (fun '(m, w) =>
         (Ok tt, (m, logging_info ("removing temp file " ++ f_name f) w))) ;;;
      (fun '(m, w) => let '(r, w') := os_unlink (f_name f) w in (r, (m, w')))
  | InMemory _ => ret tt
  end.

(** The whole content of the current backing, as [seek(0)] and [read()]
    give it back. *)
Definition contents (m : MemFile) : bytes :=
  match _fileobj m with
  | InMemory s => sio_buf s
  | OnDisk f => f_data f
  end.

(** The descriptor the buffer holds, if it has one. *)
Definition handle (m : MemFile) : option nat :=
  match _fileobj m with
  | InMemory _ => None
  | OnDisk f => Some (f_fd f)
  end.

(** A write call that moves the buffer from memory to disk. *)
Definition migrates (data : bytes) (st : St) : bool :=
  in_memory st.1 && negb (in_memory (write data st).2.1).

(** The number of moves to disk in a sequence of write calls. *)
Fixpoint migrations (ds : list bytes) (st : St) : nat :=
  match ds with
  | [] => 0%nat
  | d :: ds' =>
      ((if migrates d st then 1 else 0) + migrations ds' (write d st).2)%nat
  end.

(** The position of the current backing is the end of its content, as
    it is when the buffer has only been written to. *)
Definition at_end (m : MemFile) : bool :=
  match _fileobj m with
  | InMemory s => (sio_pos s =? length (sio_buf s))%nat
  | OnDisk f => (f_pos f =? length (f_data f))%nat
  end.

End Mem.

(** ** fileiter

    A generator is its frame: the local variables and the point where it
    is suspended.  [next] resumes it up to the following [yield] (some
    bytes) or to its end ([None], Python's StopIteration). *)

Inductive gen_pc :=
| AtStart
| AtYield (content : bytes)
| Finished.

Record fileiter_frame := mkFrame {
  file : Source;
  size : Z;
  chunk_size : Z;
  completed : Z;
  pc : gen_pc
}.

Definition default_chunk_size : Z := 1024 * 10.

(** [fileiter(file, size, chunk_size)]: nothing runs before the first
    [next]. *)
Definition fileiter (file : Source) (size chunk_size : Z) : fileiter_frame :=
  mkFrame file size chunk_size 0 AtStart.

(** From the loop test to the next suspension. *)
Definition loop (g : fileiter_frame) : option bytes * fileiter_frame :=
  if completed g <? size g then
    let nbytes := Z.min (size g - completed g) (chunk_size g) in
    let '(content, file') := src_read (Some nbytes) (file g) in
    match content with
    | [] => (None, mkFrame file' (size g) (chunk_size g) (completed g) Finished)
    | _ :: _ =>
        (Some content,
         mkFrame file' (size g) (chunk_size g) (completed g) (AtYield content))
    end
  else (None, mkFrame (file g) (size g) (chunk_size g) (completed g) Finished).

Definition next (g : fileiter_frame) : option bytes * fileiter_frame :=
  match pc g with
  | AtStart =>
      loop (mkFrame (file g) (size g) (chunk_size g) 0 (pc g))
  | AtYield content =>
      loop (mkFrame (file g) (size g) (chunk_size g)
              (completed g + len content) (pc g))
  | Finished => (None, g)
  end.

(** At most [fuel] resumptions, collecting what is yielded. *)
Fixpoint drain (fuel : nat) (g : fileiter_frame) : list bytes * fileiter_frame :=
  match fuel with
  | O => ([], g)
  | S fuel' =>
      match next g with
      | (Some content, g') =>
          let '(cs, g'') := drain fuel' g' in (content :: cs, g'')
      | (None, g') => ([], g')
      end
  end.

(** [list(fileiter(file, size, chunk_size))]: every chunk but the last
    resumption takes at least one byte from the file, so one resumption
    more than the bytes left is enough ([drain_finishes]). *)
Definition chunks (g : fileiter_frame) : list bytes * fileiter_frame :=
  drain (S (length (remaining (file g)))) g.

(** The frame after [k] resumptions. *)
Fixpoint resumed (k : nat) (g : fileiter_frame) : fileiter_frame :=
  match k with
  | O => g
  | S k' => resumed k' (next g).2
  end.

(** The sizes the generator asked the file for. *)
Definition requests (f : Source) : list (option Z) :=
  map (fun c => match c with SrcRead n => n | SrcReadline n => n end)
    (src_calls f).

(** The bytes the generator has passed to its consumer at a suspension. *)
Definition yielded (g : fileiter_frame) : Z :=
  match pc g with
  | AtStart => 0
  | AtYield content => completed g + len content
  | Finished => completed g
  end.

(** What the source alone answers to a sequence of requests, and the
    source afterwards. *)
Fixpoint src_run (cs : list call) (f : Source) : list bytes * Source :=
  match cs with
  | [] => ([], f)
  | c :: cs' =>
      let '(t, f1) := src_answer c f in
      let '(ts, f2) := src_run cs' f1 in
      (t :: ts, f2)
  end.

(** The spy object handed to the constructor, if any, is an open file. *)
Definition spy_usable (h : Heap) (spyobj : option loc) : bool :=
  match spyobj with
  | Some l => sink_open h l
  | None => true
  end.

Definition not_ok {A} (r : result A) : bool := negb (is_ok r).
Definition not_size_limit {A} (r : result A) : bool := negb (is_size_limit r).

(** ** SpyFile.readlines

    [__iter__] calls [readline()] until it gives an empty string, and
    [readlines] is [list(self)].  Every pass of the loop but the last takes
    at least one byte from the source, so one pass more than the bytes
    left always reaches the end; [iter_lines] is the loop with that bound
    on its passes. *)
Fixpoint iter_lines (passes : nat) : M St (list bytes) :=
  match passes with
  | O => ret []
  | S passes' =>
      line <~ readline None ;;
      match line with
      | [] => ret []
      | _ :: _ => rest <~ iter_lines passes' ;; ret (line :: rest)
      end
  end.

Definition readlines : M St (list bytes) :=
  fun st => iter_lines (S (length (remaining (fileobj st.1)))) st.

(** ** DummyFilePool *)

Record DummyFilePool := mkPool {
  counter : Z
}.

(** [counter = 0] in the class body. *)
Definition new_pool : DummyFilePool := mkPool 0.

(** ["/tmp/record-%d.arc.gz" % counter] *)
Definition record_name (counter : Z) : string :=
  "/tmp/record-" +:+ pretty counter +:+ ".arc.gz".

(** The [while os.path.exists(filename)] loop, at most [passes] times
    round: the counter it stops at. *)
Fixpoint free_counter (passes : nat) (names : gset string) (counter : Z) : Z :=
  match passes with
  | O => counter
  | S passes' =>
      if bool_decide (record_name counter ∈ names)
      then free_counter passes' names (counter + 1)
      else counter
  end.

(** [open(filename, "w")]: the path exists afterwards and the file is
    empty. *)
Definition open_w (filename : string) (w : World) : File * World :=
  let fd := fresh (fds w) in
  (mkFile fd filename [] 0,
   mkWorld ({[filename]} ∪ fs w) ({[fd]} ∪ fds w) (log w)).

(** [DummyFilePool.get_file].  The names tried are all different, so the
    loop cannot go round more often than there are paths; that many passes
    are always enough ([free_counter_spec]). *)
Definition get_file : M (DummyFilePool * World) File :=
  fun '(p, w) =>
    let c := free_counter (S (base.size (fs w))) (fs w) (counter p) in
    let '(f, w') := open_w (record_name c) w in
    (Ok f, (mkPool c, w')).

(** A limit that is [None] or an integer, not text. *)
Definition numeric_limit (ms : pyval) : bool :=
  match ms with
  | PyStr _ => false
  | _ => true
  end.

(** The lines of a byte string, each with its terminator: what Python's
    [splitlines(True)] gives when "\n" is the only terminator. *)
Fixpoint split_lines (l : bytes) : list bytes :=
  match l with
  | [] => []
  | c :: l' =>
      if Byte.eqb c NL then [c] :: split_lines l'
      else
        match split_lines l' with
        | [] => [[c]]
        | line :: rest => (c :: line) :: rest
        end
  end.

(** The bytes of the leading lines of [ls] up to and including the first
    one that takes a count starting at [cur] past [M] (all of [ls] if none
    does). *)
Fixpoint read_until (M cur : Z) (ls : list bytes) : bytes :=
  match ls with
  | [] => []
  | l :: ls' =>
      if M <? cur + len l then l else l ++ read_until M (cur + len l) ls'
  end.

(** * Properties of SpyFile *)

Section SourceFacts.

Lemma take_add_drop {A} (n m : nat) (l : list A) :
  take (n + m) l = take n l ++ take m (drop n l).
Proof.
  revert l; induction n as [|n IH]; intros [|x l]; simpl; try done.
  - by destruct m.
  - by rewrite IH.
Qed.

Lemma take_length_take {A} (k : nat) (l : list A) :
  take (length (take k l)) l = take k l.
Proof.
  revert l; induction k as [|k IH]; intros [|x l]; simpl; try done.
  by rewrite IH.
Qed.

Lemma src_take_consumed k c f :
  consumed (src_take k c f).2 = consumed f ++ (src_take k c f).1.
Proof.
  unfold consumed, src_take, remaining; simpl.
  by rewrite take_add_drop, take_length_take.
Qed.

Lemma src_take_data k c f : src_data (src_take k c f).2 = src_data f.
Proof. done. Qed.

Lemma src_take_calls k c f : src_calls (src_take k c f).2 = src_calls f ++ [c].
Proof. done. Qed.

Lemma src_answer_consumed c f :
  consumed (src_answer c f).2 = consumed f ++ (src_answer c f).1.
Proof. destruct c; apply src_take_consumed. Qed.

Lemma src_answer_data c f : src_data (src_answer c f).2 = src_data f.
Proof. by destruct c. Qed.

Lemma len_app (s t : bytes) : len (s ++ t) = len s + len t.
Proof. unfold len. rewrite length_app. lia. Qed.

Lemma len_nonneg (t : bytes) : 0 <= len t.
Proof. unfold len. lia. Qed.

End SourceFacts.

Section SpyFileFacts.

Lemma _check_size_check sf h :
  _check_size (sf, h) = (check (max_size sf) (current_size sf), (sf, h)).
Proof.
  unfold _check_size, check, bind, self, ret, raise; simpl.
  destruct (truthy (max_size sf)); [|done].
  destruct (py_int (max_size sf)) as [m|e]; [|done].
  by destruct (m <? current_size sf).
Qed.

Lemma sk_closed_app s c : sk_closed (s ++ [c]) = sk_closed s || is_close c.
Proof. unfold sk_closed. rewrite existsb_app. simpl. by rewrite orb_false_r. Qed.

Lemma sk_written_app s c :
  sk_written (s ++ [c])
  = sk_written s ++ match c with SkWrite t => t | _ => [] end.
Proof.
  induction s as [|x s IH]; simpl.
  - destruct c; simpl; by rewrite ?app_nil_r.
  - destruct x; rewrite IH; by rewrite ?app_assoc.
Qed.

Lemma sk_written_concat s1 s2 :
  sk_written (s1 ++ s2) = sk_written s1 ++ sk_written s2.
Proof.
  induction s1 as [|x s1 IH]; simpl; [done|].
  destruct x; rewrite IH; by rewrite ?app_assoc.
Qed.

Lemma sink_open_Some h l :
  sink_open h l = true <-> exists s, h !! l = Some s /\ sk_closed s = false.
Proof.
  unfold sink_open. destruct (h !! l) as [s|]; split.
  - intros H. exists s. split; [done|]. by destruct (sk_closed s).
  - intros (s' & [= <-] & ->). done.
  - done.
  - by intros (s' & ? & _).
Qed.

(** What a read or readline call does when the sink takes the write. *)
Lemma do_call_open c sf h s :
  h !! buf sf = Some s -> sk_closed s = false ->
  do_call c (sf, h)
  = let '(t, f') := src_answer c (fileobj sf) in
    (match check (max_size sf) (current_size sf + len t) with
     | Ok _ => Ok t
     | Raise e => Raise e
     end,
     (mkSpyFile f' (buf sf) (max_size sf) (current_size sf + len t),
      <[buf sf := s ++ [SkWrite t]]> h)).
Proof.
  intros Hs Hc.
  destruct c as [n|n]; unfold do_call, src_answer, read, readline, bind, src_lift.
  all: match goal with
       | |- context [src_read ?a ?f] => destruct (src_read a f) as [t f']
       | |- context [src_readline ?a ?f] => destruct (src_readline a f) as [t f']
       end.
  all: unfold buf_do, sink_do; simpl; rewrite Hs, Hc; simpl.
  all: unfold add_current_size; simpl; rewrite _check_size_check; simpl.
  all: by destruct (check _ _).
Qed.

(** What it does when the sink refuses the write: the source has been
    read, nothing else has changed. *)
Lemma do_call_shut c sf h :
  sink_open h (buf sf) = false ->
  exists e,
    do_call c (sf, h)
    = (Raise e,
       (mkSpyFile (src_answer c (fileobj sf)).2 (buf sf) (max_size sf)
          (current_size sf), h))
    /\ (e = ValueError \/ e = DanglingRef).
Proof.
  unfold sink_open. intros Hs.
  destruct c as [n|n]; unfold do_call, src_answer, read, readline, bind, src_lift.
  all: match goal with
       | |- context [src_read ?a ?f] => destruct (src_read a f) as [t f']
       | |- context [src_readline ?a ?f] => destruct (src_readline a f) as [t f']
       end.
  all: unfold buf_do, sink_do; simpl.
  all: destruct (h !! buf sf) as [s|]; simpl in *;
       [destruct (sk_closed s); [|done]|]; simpl; eauto.
Qed.

Lemma check_falsy ms cur : truthy ms = false -> check ms cur = Ok tt.
Proof. unfold check. by intros ->. Qed.

Lemma check_int M cur :
  M <> 0 ->
  check (PyInt M) cur
  = if M <? cur then Raise (SizeLimitExceeded cur M) else Ok tt.
Proof.
  intros HM. unfold check; simpl.
  destruct (Z.eqb_spec M 0); [done|]. done.
Qed.

Lemma check_not_limit ms cur :
  truthy ms = false -> is_size_limit (check ms cur) = false.
Proof. intros H. by rewrite check_falsy. Qed.

(** One call on an open sink, fact by fact. *)
Lemma do_call_open_facts c sf h :
  sink_open h (buf sf) = true ->
  let r := do_call c (sf, h) in
  let t := (src_answer c (fileobj sf)).1 in
  fileobj r.2.1 = (src_answer c (fileobj sf)).2
  /\ buf r.2.1 = buf sf
  /\ max_size r.2.1 = max_size sf
  /\ current_size r.2.1 = current_size sf + len t
  /\ written r.2.2 (buf sf) = written h (buf sf) ++ t
  /\ sink_open r.2.2 (buf sf) = true
  /\ (forall l, l <> buf sf -> r.2.2 !! l = h !! l)
  /\ r.1 = match check (max_size sf) (current_size sf + len t) with
           | Ok _ => Ok t
           | Raise e => Raise e
           end.
Proof.
  intros Ho. apply sink_open_Some in Ho as (s & Hs & Hc).
  intros r t. subst r t. rewrite (do_call_open c sf h s Hs Hc).
  destruct (src_answer c (fileobj sf)) as [t f']; simpl.
  unfold written, sink_open. rewrite lookup_insert_eq, Hs.
  rewrite sk_written_app, sk_closed_app, Hc. simpl.
  repeat split; try done.
  intros l Hl. by rewrite lookup_insert_ne.
Qed.

Lemma run_cons c cs st :
  run (c :: cs) st
  = ((do_call c st).1 :: (run cs (do_call c st).2).1,
     (run cs (do_call c st).2).2).
Proof.
  simpl. destruct (do_call c st) as [r st1]. simpl.
  by destruct (run cs st1).
Qed.

Lemma src_run_cons c cs f :
  src_run (c :: cs) f
  = ((src_answer c f).1 :: (src_run cs (src_answer c f).2).1,
     (src_run cs (src_answer c f).2).2).
Proof.
  simpl. destruct (src_answer c f) as [t f1]. simpl.
  by destruct (src_run cs f1).
Qed.

Lemma src_run_consumed cs : forall f,
  consumed (src_run cs f).2 = consumed f ++ concat (src_run cs f).1
  /\ src_data (src_run cs f).2 = src_data f.
Proof.
  induction cs as [|c cs IH]; intros f.
  - simpl. by rewrite app_nil_r.
  - rewrite src_run_cons. simpl.
    destruct (IH (src_answer c f).2) as [-> ->].
    by rewrite src_answer_consumed, src_answer_data, app_assoc.
Qed.

(** A sequence of calls on an open sink: the bytes the source gave out
    are [delta]; the sink and the counter have received them all. *)
Lemma run_open cs : forall sf h,
  sink_open h (buf sf) = true ->
  let r := run cs (sf, h) in
  let delta := concat (src_run cs (fileobj sf)).1 in
  fileobj r.2.1 = (src_run cs (fileobj sf)).2
  /\ written r.2.2 (buf sf) = written h (buf sf) ++ delta
  /\ current_size r.2.1 = current_size sf + len delta
  /\ buf r.2.1 = buf sf
  /\ max_size r.2.1 = max_size sf
  /\ sink_open r.2.2 (buf sf) = true
  /\ (forall l, l <> buf sf -> r.2.2 !! l = h !! l)
  /\ (forallb is_ok r.1 = true -> returned r.1 = delta)
  /\ (truthy (max_size sf) = false -> r.1 = map Ok (src_run cs (fileobj sf)).1)
  /\ (forall M, max_size sf = PyInt M -> M <> 0 ->
      r.1 = limit_outcomes M (current_size sf) (fileobj sf) cs).
Proof.
  induction cs as [|c cs IH]; intros sf h Ho r delta; subst r delta.
  - simpl. rewrite !app_nil_r. repeat split; try done.
    unfold len; simpl; lia.
  - rewrite run_cons, src_run_cons.
    destruct (do_call_open_facts c sf h Ho)
      as (Hf & Hb & Hm & Hcur & Hw & Ho1 & Hfr & Hr).
    destruct (do_call c (sf, h)) as [r1 [sf1 h1]]; simpl in *.
    rewrite <- Hb in Ho1.
    destruct (IH sf1 h1 Ho1)
      as (Hf' & Hw' & Hcur' & Hb' & Hm' & Ho' & Hfr' & Hret & Hok & Hlim).
    destruct (run cs (sf1, h1)) as [rs [sf2 h2]]; simpl in *.
    rewrite Hb, Hf in *.
    rewrite Hf', Hw', Hw, Hcur', Hcur, len_app, Hm', Hm, <- !app_assoc.
    repeat split; try done.
    + lia.
    + intros l Hl. by rewrite Hfr', Hfr.
    + intros Hall. apply andb_true_iff in Hall as [H1 H2].
      rewrite Hr in *. destruct (check _ _); [|done].
      by rewrite (Hret H2).
    + intros Hfalsy. rewrite Hr, (check_falsy _ _ Hfalsy). simpl.
      f_equal. apply Hok. by rewrite Hm.
    + intros M HM HM0. rewrite Hr, HM, (check_int _ _ HM0).
      assert (HM1 : max_size sf1 = PyInt M) by congruence.
      rewrite (Hlim M HM1 HM0), Hcur.
      destruct (src_answer c (fileobj sf)) as [t f']. simpl.
      by destruct (M <? current_size sf + len t).
Qed.

Lemma forallb_is_ok_map (ts : list bytes) :
  forallb is_ok (map (@Ok bytes) ts) = true.
Proof. by induction ts. Qed.

Lemma do_op_cons o os st :
  exec (o :: os) st
  = (match (do_op o st).1 with
     | Some x => x :: (exec os (do_op o st).2).1
     | None => (exec os (do_op o st).2).1
     end,
     (exec os (do_op o st).2).2).
Proof.
  simpl. destruct (do_op o st) as [r st1]. simpl.
  by destruct (exec os st1).
Qed.

(** [change_spy] never touches the source, the limit or the counter,
    whether it completes or not. *)
Lemma change_spy_frame l sf h :
  let r := change_spy l (sf, h) in
  fileobj r.2.1 = fileobj sf
  /\ max_size r.2.1 = max_size sf
  /\ current_size r.2.1 = current_size sf.
Proof.
  unfold change_spy, bind, buf_do, sink_do, set_buf; simpl.
  destruct (h !! buf sf) as [s|]; simpl; [|done].
  destruct (sk_closed s); simpl; [done|].
  rewrite lookup_insert_eq. simpl.
  rewrite sk_closed_app. by destruct (sk_closed s).
Qed.

(** Any call, whatever the state of the sink: the limit stays, the counter
    does not go down, and the outcome is the size check's unless the sink
    refused the write. *)
Lemma do_call_any c sf h :
  let r := do_call c (sf, h) in
  max_size r.2.1 = max_size sf
  /\ current_size sf <= current_size r.2.1
  /\ (r.1 = match check (max_size sf) (current_size r.2.1) with
            | Ok _ => Ok (src_answer c (fileobj sf)).1
            | Raise e => Raise e
            end
      \/ r.1 = Raise ValueError \/ r.1 = Raise DanglingRef).
Proof.
  destruct (sink_open h (buf sf)) eqn:Ho.
  - destruct (do_call_open_facts c sf h Ho) as (_ & _ & Hm & Hcur & _ & _ & _ & Hr).
    simpl. rewrite Hm, Hcur, Hr.
    pose proof (len_nonneg (src_answer c (fileobj sf)).1).
    repeat split; [lia | by left].
  - destruct (do_call_shut c sf h Ho) as (e & -> & He). simpl.
    repeat split; [lia|]. right. by destruct He as [-> | ->]; [left | right].
Qed.

Lemma tripped_check sf cur :
  tripped sf = true -> current_size sf <= cur ->
  exists M, max_size sf = PyInt M /\ M <> 0 /\ M < current_size sf
    /\ check (max_size sf) cur = Raise (SizeLimitExceeded cur M).
Proof.
  unfold tripped. destruct (max_size sf) as [|M|]; try done.
  intros [HM Hlt]%andb_true_iff Hle.
  apply negb_true_iff, Z.eqb_neq in HM. apply Z.ltb_lt in Hlt.
  exists M. repeat split; try done.
  rewrite (check_int _ _ HM).
  destruct (Z.ltb_spec M cur); [done | lia].
Qed.

Lemma do_call_tripped c sf h :
  tripped sf = true ->
  let r := do_call c (sf, h) in
  tripped r.2.1 = true /\ is_ok r.1 = false.
Proof.
  intros Ht. destruct (do_call_any c sf h) as (Hm & Hle & Hr). simpl in *.
  destruct (tripped_check sf _ Ht Hle) as (M & HM & HM0 & Hlt & Hc).
  split.
  - unfold tripped. rewrite Hm, HM.
    apply andb_true_iff. split.
    + by apply negb_true_iff, Z.eqb_neq.
    + apply Z.ltb_lt. lia.
  - rewrite Hc in Hr. by destruct Hr as [-> | [-> | ->]].
Qed.

Lemma do_call_falsy c sf h :
  truthy (max_size sf) = false ->
  let r := do_call c (sf, h) in
  max_size r.2.1 = max_size sf /\ is_size_limit r.1 = false.
Proof.
  intros Hf. destruct (do_call_any c sf h) as (Hm & _ & Hr). simpl in *.
  split; [done|].
  rewrite (check_falsy _ _ Hf) in Hr. by destruct Hr as [-> | [-> | ->]].
Qed.

Lemma exec_tripped os : forall sf h,
  tripped sf = true ->
  let r := exec os (sf, h) in
  tripped r.2.1 = true /\ forallb not_ok r.1 = true.
Proof.
  induction os as [|o os IH]; intros sf h Ht; [done|].
  rewrite do_op_cons. destruct o as [c|l]; simpl.
  - destruct (do_call_tripped c sf h Ht) as [Ht1 Hr].
    destruct (do_call c (sf, h)) as [r1 [sf1 h1]]; simpl in *.
    destruct (IH sf1 h1 Ht1) as [Ht2 Hrs]. split; [done|].
    unfold not_ok at 1. by rewrite Hr.
  - destruct (change_spy_frame l sf h) as (_ & Hm & Hc).
    destruct (change_spy l (sf, h)) as [r1 [sf1 h1]]; simpl in *.
    apply IH. unfold tripped in *. by rewrite Hm, Hc.
Qed.

Lemma exec_falsy os : forall sf h,
  truthy (max_size sf) = false ->
  forallb not_size_limit (exec os (sf, h)).1 = true.
Proof.
  induction os as [|o os IH]; intros sf h Hf; [done|].
  rewrite do_op_cons. destruct o as [c|l]; simpl.
  - destruct (do_call_falsy c sf h Hf) as [Hm Hr].
    destruct (do_call c (sf, h)) as [r1 [sf1 h1]]; simpl in *.
    unfold not_size_limit at 1. rewrite Hr. simpl.
    apply IH. by rewrite Hm.
  - destruct (change_spy_frame l sf h) as (_ & Hm & _).
    destruct (change_spy l (sf, h)) as [r1 [sf1 h1]]; simpl in *.
    apply IH. by rewrite Hm.
Qed.

Lemma truthy_false v :
  truthy v = false <-> v = PyNone \/ v = PyInt 0 \/ v = PyStr EmptyString.
Proof.
  split.
  - destruct v as [|z|[|a s]]; simpl; try done; auto.
    intros H. apply negb_false_iff, Z.eqb_eq in H. subst. auto.
  - by intros [-> | [-> | ->]].
Qed.

(** The state a constructor call leaves: the sink is open, nothing has
    been read or counted. *)
Lemma spy_initial S spyobj ms h :
  spy_usable h spyobj = true ->
  let st0 := spy (source S) spyobj ms h in
  sink_open st0.2 (buf st0.1) = true
  /\ fileobj st0.1 = source S
  /\ max_size st0.1 = ms
  /\ current_size st0.1 = 0.
Proof.
  unfold spy, SpyFile_init, spy_usable. destruct spyobj as [l|]; simpl; [done|].
  intros _. unfold sink_open. by rewrite lookup_insert_eq.
Qed.

Lemma spy_default_sink_empty f ms h :
  let st0 := spy f None ms h in written st0.2 (buf st0.1) = [].
Proof.
  unfold spy, SpyFile_init, new_StringIO, written; simpl.
  by rewrite lookup_insert_eq.
Qed.

(** The scenario of two readline calls over "hello\nworld\n". *)
Lemma readline_twice h :
  let r := run [Readline None; Readline None]
             (spy (source hello_world) None PyNone h) in
  r.1 = [Ok (b "hello" ++ [NL]); Ok (b "world" ++ [NL])]
  /\ written r.2.2 (buf r.2.1) = hello_world
  /\ current_size r.2.1 = 12.
Proof.
  intros r; subst r.
  destruct (spy_initial hello_world None PyNone h eq_refl) as (Ho & Hf & Hm & Hc).
  pose proof (spy_default_sink_empty (source hello_world) PyNone h) as Hw0.
  destruct (spy (source hello_world) None PyNone h) as [sf0 h0].
  simpl in Ho, Hf, Hm, Hc, Hw0.
  destruct (run_open [Readline None; Readline None] sf0 h0 Ho)
    as (_ & Hw & Hcur & Hb & _ & _ & _ & _ & Hok & _).
  rewrite Hb, Hw, Hcur, Hok, Hf, Hw0, Hc by (by rewrite Hm).
  by vm_compute.
Qed.

Lemma limit_outcomes_below M cs : forall cur f,
  cur + len (concat (src_run cs f).1) <= M ->
  forallb is_ok (limit_outcomes M cur f cs) = true.
Proof.
  induction cs as [|c cs IH]; intros cur f Hle; [done|].
  rewrite src_run_cons in Hle. simpl in *. rewrite len_app in Hle.
  destruct (src_answer c f) as [t f1]. simpl in *.
  pose proof (len_nonneg (concat (src_run cs f1).1)).
  destruct (Z.ltb_spec M (cur + len t)); [lia|]. simpl.
  apply IH. lia.
Qed.

Lemma limit_outcomes_above M cs : forall cur f,
  M < cur ->
  forallb is_size_limit (limit_outcomes M cur f cs) = true.
Proof.
  induction cs as [|c cs IH]; intros cur f Hlt; [done|].
  simpl. destruct (src_answer c f) as [t f1].
  pose proof (len_nonneg t).
  destruct (Z.ltb_spec M (cur + len t)); [|lia]. simpl.
  apply IH. lia.
Qed.

(** One call under an integer limit in force, on an open sink. *)
Lemma do_call_limited M c sf h :
  max_size sf = PyInt M -> M <> 0 -> sink_open h (buf sf) = true ->
  let t := (src_answer c (fileobj sf)).1 in
  let cur' := current_size sf + len t in
  let r := do_call c (sf, h) in
  r.1 = (if M <? cur' then Raise (SizeLimitExceeded cur' M) else Ok t)
  /\ current_size r.2.1 = cur'
  /\ written r.2.2 (buf sf) = written h (buf sf) ++ t
  /\ fileobj r.2.1 = (src_answer c (fileobj sf)).2.
Proof.
  intros HM HM0 Ho.
  destruct (do_call_open_facts c sf h Ho) as (Hf & _ & _ & Hcur & Hw & _ & _ & Hr).
  simpl in *. rewrite Hr, HM, (check_int _ _ HM0).
  repeat split; try done.
  by destruct (M <? _).
Qed.

(** Under an integer limit a call either returns or raises
    SizeLimitExceeded. *)
Lemma limit_outcomes_ok_or_limit M cs : forall cur f,
  forallb not_size_limit (limit_outcomes M cur f cs) = true ->
  forallb is_ok (limit_outcomes M cur f cs) = true.
Proof.
  induction cs as [|c cs IH]; intros cur f; [done|].
  simpl. destruct (src_answer c f) as [t f1].
  destruct (M <? cur + len t); simpl; [done|]. apply IH.
Qed.

Lemma take_prefix_of {A} (n : nat) (l : list A) : take n l `prefix_of` l.
Proof. exists (drop n l). by rewrite take_drop. Qed.

End SpyFileFacts.


(** ** The claims about SpyFile *)

(** C1 (as amended).  Read-through is lossless and order-preserving.  For
    every byte sequence [S], every limit and every sequence of read and
    readline calls on a SpyFile whose sink is open: the part of [S]
    consumed so far is a prefix of [S]; everything appended to the sink is
    exactly that prefix; [current_size] is its length; and the bytes
    returned by the calls concatenate to that prefix provided every call
    returned.  When the limit is [None] or an integer, it is enough that
    no call raised SizeLimitExceeded; when no limit is in force every call
    returns.  For the source "hello\nworld\n", two readline calls
    return "hello\n" then "world\n", the sink holds "hello\nworld\n" and
    the counter is 12. *)
Theorem read_through_lossless
    (S : bytes) (spyobj : option loc) (ms : pyval) (h : Heap) (cs : list call) :
  spy_usable h spyobj = true ->
  let st0 := spy (source S) spyobj ms h in
  let r := run cs st0 in
  let seen := consumed (fileobj r.2.1) in
  seen `prefix_of` S
  /\ written r.2.2 (buf r.2.1) = written st0.2 (buf st0.1) ++ seen
  /\ current_size r.2.1 = len seen
  /\ (forallb is_ok r.1 = true -> returned r.1 = seen)
  /\ (numeric_limit ms = true -> forallb not_size_limit r.1 = true ->
      returned r.1 = seen)
  /\ (truthy ms = false -> forallb is_ok r.1 = true)
  /\ (let r2 := run [Readline None; Readline None]
                  (spy (source hello_world) None PyNone h) in
      r2.1 = [Ok (b "hello" ++ [NL]); Ok (b "world" ++ [NL])]
      /\ written r2.2.2 (buf r2.2.1) = hello_world
      /\ current_size r2.2.1 = 12).
Proof.
  intros Hu st0 r seen.
  destruct (spy_initial S spyobj ms h Hu) as (Ho & Hf & Hm & Hc).
  fold st0 in Ho, Hf, Hm, Hc.
  destruct st0 as [sf0 h0] eqn:E0; simpl in *.
  destruct (run_open cs sf0 h0 Ho)
    as (Hfo & Hw & Hcur & Hb & _ & _ & _ & Hret & Hok & Hlim).
  fold r in Hfo, Hw, Hcur, Hb, Hret, Hok, Hlim.
  destruct (src_run_consumed cs (fileobj sf0)) as [Hcons Hdata].
  assert (Hseen : seen = concat (src_run cs (fileobj sf0)).1).
  { unfold seen. rewrite Hfo, Hcons, Hf. done. }
  assert (Hfalsy : truthy ms = false -> forallb is_ok r.1 = true).
  { intros Hfa. rewrite Hok by (by rewrite Hm). apply forallb_is_ok_map. }
  split; [|split; [|split; [|split; [|split; [|split]]]]].
  - unfold seen, consumed. rewrite Hfo, Hdata, Hf. apply take_prefix_of.
  - by rewrite Hb, Hw, Hseen.
  - rewrite Hcur, Hc, Hseen. lia.
  - intros Hall. by rewrite Hseen, Hret.
  - intros Hnum Hnsl. rewrite Hseen. apply Hret.
    destruct ms as [|M|s]; [by apply Hfalsy | | done].
    destruct (Z.eq_dec M 0) as [->|HM0]; [by apply Hfalsy|].
    rewrite (Hlim M Hm HM0) in Hnsl |- *.
    by apply limit_outcomes_ok_or_limit.
  - done.
  - apply readline_twice.
Qed.

Lemma read_through_lossless_witness :
  spy_usable (<[0%nat := [SkWrite (b "log")]]> ∅) (Some 0%nat) = true
  /\ let r := run [Read (Some 4); Readline None; Read None]
                (spy (source hello_world) (Some 0%nat) (PyInt 100)
                   (<[0%nat := [SkWrite (b "log")]]> ∅)) in
     written r.2.2 (buf r.2.1) = b "log" ++ consumed (fileobj r.2.1)
     /\ current_size r.2.1 = len (consumed (fileobj r.2.1)).
Proof.
  split; [reflexivity|].
  pose proof (read_through_lossless hello_world (Some 0%nat) (PyInt 100)
                (<[0%nat := [SkWrite (b "log")]]> ∅)
                [Read (Some 4); Readline None; Read None] eq_refl) as H.
  exact (conj (proj1 (proj2 H)) (proj1 (proj2 (proj2 H)))).
Defined.

(** C1, the claim as stated, fails when a call trips the limit: with
    [max_size = 8] the second readline raises after "world\n" has been
    consumed and mirrored, so the bytes returned are "hello\n" only. *)
Lemma read_through_counterexample :
  let r := run [Readline None; Readline None]
             (spy (source hello_world) None (PyInt 8) ∅) in
  r.1 = [Ok (b "hello" ++ [NL]); Raise (SizeLimitExceeded 12 8)]
  /\ consumed (fileobj r.2.1) = hello_world
  /\ returned r.1 = b "hello" ++ [NL]
  /\ returned r.1 <> consumed (fileobj r.2.1).
Proof. vm_compute. repeat split; done. Qed.

(** A limit given as text that is not a number: the call raises ValueError
    after "hello\n" has been consumed, so no call raised SizeLimitExceeded
    and yet the bytes returned are not the bytes consumed. *)
Example read_through_text_limit :
  let r := run [Readline None]
             (spy (source hello_world) None (PyStr "abc") ∅) in
  r.1 = [Raise ValueError]
  /\ forallb not_size_limit r.1 = true
  /\ consumed (fileobj r.2.1) = b "hello" ++ [NL]
  /\ returned r.1 = [].
Proof. vm_compute. repeat split; done. Qed.

(** C2.  With an integer limit [M] in force ([max_size = M], which the
    guard [if self.max_size] takes as set when [M] is not 0) and an open
    sink: the outcomes of any sequence of read and readline calls are those
    of [limit_outcomes], that is, a call raises SizeLimitExceeded exactly
    when the cumulative count on its completion is greater than [M]; no
    call raises as long as the count stays at or below [M]; and on every
    call, the one that raises included, the bytes obtained have been
    appended to the sink and added to the counter. *)
Theorem size_limit_strictly_greater
    (M : Z) (sf : SpyFile) (h : Heap) (cs : list call) :
  max_size sf = PyInt M -> M <> 0 -> sink_open h (buf sf) = true ->
  let r := run cs (sf, h) in
  r.1 = limit_outcomes M (current_size sf) (fileobj sf) cs
  /\ (current_size r.2.1 <= M -> forallb is_ok r.1 = true)
  /\ (forall c,
        let t := (src_answer c (fileobj sf)).1 in
        let cur' := current_size sf + len t in
        let r1 := do_call c (sf, h) in
        r1.1 = (if M <? cur' then Raise (SizeLimitExceeded cur' M) else Ok t)
        /\ current_size r1.2.1 = cur'
        /\ written r1.2.2 (buf sf) = written h (buf sf) ++ t).
Proof.
  intros HM HM0 Ho r.
  destruct (run_open cs sf h Ho) as (_ & _ & Hcur & _ & _ & _ & _ & _ & _ & Hlim).
  fold r in Hcur. specialize (Hlim M HM HM0). fold r in Hlim.
  split; [done|]. split.
  - intros Hle. rewrite Hlim. apply limit_outcomes_below. lia.
  - intros c. destruct (do_call_limited M c sf h HM HM0 Ho) as (H1 & H2 & H3 & _).
    done.
Qed.

Lemma size_limit_strictly_greater_witness :
  let sf := mkSpyFile (source hello_world) 0%nat (PyInt 8) 0 in
  let h : Heap := <[0%nat := []]> ∅ in
  (max_size sf = PyInt 8 /\ 8 <> 0 /\ sink_open h (buf sf) = true)
  /\ (run [Read (Some 8); Read (Some 1); Read (Some 1)] (sf, h)).1
     = limit_outcomes 8 0 (source hello_world)
         [Read (Some 8); Read (Some 1); Read (Some 1)].
Proof.
  split; [split; [reflexivity | split; [lia | reflexivity]]|].
  exact (proj1 (size_limit_strictly_greater 8
                  (mkSpyFile (source hello_world) 0%nat (PyInt 8) 0)
                  (<[0%nat := []]> ∅)
                  [Read (Some 8); Read (Some 1); Read (Some 1)]
                  eq_refl ltac:(lia) eq_refl)).
Defined.

(** C4 (as amended).  On the read or readline call that trips the limit
    the caller receives no bytes: the call raises SizeLimitExceeded, with
    the count reached and the limit, in place of returning.  The bytes read
    on that call have left the source and are the last thing written to
    the sink, which is where the caller can still find them. *)
Theorem limit_trip_raises_after_recording
    (M : Z) (sf : SpyFile) (h : Heap) (s : Sink) (c : call) :
  max_size sf = PyInt M -> M <> 0 ->
  h !! buf sf = Some s -> sk_closed s = false ->
  let t := (src_answer c (fileobj sf)).1 in
  M < current_size sf + len t ->
  let r := do_call c (sf, h) in
  r.1 = Raise (SizeLimitExceeded (current_size sf + len t) M)
  /\ is_ok r.1 = false
  /\ r.2.2 !! buf sf = Some (s ++ [SkWrite t])
  /\ consumed (fileobj r.2.1) = consumed (fileobj sf) ++ t
  /\ current_size r.2.1 = current_size sf + len t.
Proof.
  intros HM HM0 Hs Hc t Hlt r. subst r.
  rewrite (do_call_open c sf h s Hs Hc).
  pose proof (src_answer_consumed c (fileobj sf)) as Hcons. fold t in Hcons.
  subst t. destruct (src_answer c (fileobj sf)) as [t f']. simpl in *.
  rewrite HM, (check_int _ _ HM0).
  destruct (Z.ltb_spec M (current_size sf + len t)); [|lia].
  by rewrite lookup_insert_eq.
Qed.

Lemma limit_trip_raises_after_recording_witness :
  let sf := mkSpyFile (source (b "hello")) 0%nat (PyInt 3) 0 in
  let h : Heap := <[0%nat := []]> ∅ in
  (max_size sf = PyInt 3 /\ 3 <> 0 /\ h !! buf sf = Some []
   /\ sk_closed [] = false /\ 3 < current_size sf + len (b "hello"))
  /\ (do_call (Read None) (sf, h)).1 = Raise (SizeLimitExceeded 5 3).
Proof.
  split; [split; [reflexivity | split; [lia | split; [reflexivity | split; [reflexivity | vm_compute; reflexivity]]]]|].
  exact (proj1 (limit_trip_raises_after_recording 3
                  (mkSpyFile (source (b "hello")) 0%nat (PyInt 3) 0)
                  (<[0%nat := []]> ∅) [] (Read None)
                  eq_refl ltac:(lia) eq_refl eq_refl ltac:(vm_compute; reflexivity))).
Defined.

(** C4, the claim as stated, fails: reading "hello" under [max_size = 3]
    the call does not return "hello", it raises; the five bytes are in the
    sink only. *)
Lemma limit_trip_counterexample :
  let r := do_call (Read None) (spy (source (b "hello")) None (PyInt 3) ∅) in
  r.1 = Raise (SizeLimitExceeded 5 3)
  /\ r.1 <> Ok (b "hello")
  /\ written r.2.2 (buf r.2.1) = b "hello".
Proof. vm_compute. repeat split; done. Qed.

(** C8.  [change_spy] on an open current sink flushes it, closes it (the
    two calls are the last the old sink receives, in that order), attaches
    the new sink, and leaves the source, the limit and [current_size] as
    they were.  Reads and readlines made afterwards, the new sink being
    open, are mirrored to the new sink only: the old one stays exactly as
    [change_spy] left it. *)
Theorem change_spy_swaps_sink
    (sf : SpyFile) (h : Heap) (new : loc) (s : Sink) (cs : list call) :
  h !! buf sf = Some s -> sk_closed s = false ->
  let r := change_spy new (sf, h) in
  r.1 = Ok tt
  /\ r.2.1 = mkSpyFile (fileobj sf) new (max_size sf) (current_size sf)
  /\ r.2.2 = <[buf sf := s ++ [SkFlush; SkClose]]> h
  /\ (sink_open r.2.2 new = true ->
      let r' := run cs r.2 in
      let delta := concat (src_run cs (fileobj sf)).1 in
      buf r'.2.1 = new
      /\ written r'.2.2 new = written h new ++ delta
      /\ r'.2.2 !! buf sf = Some (s ++ [SkFlush; SkClose])
      /\ written r'.2.2 (buf sf) = written h (buf sf)).
Proof.
  intros Hs Hc r.
  assert (Hr : r = (Ok tt,
                    (mkSpyFile (fileobj sf) new (max_size sf) (current_size sf),
                     <[buf sf := s ++ [SkFlush; SkClose]]> h))).
  { subst r. unfold change_spy, bind, buf_do, sink_do, set_buf; simpl.
    rewrite Hs, Hc. simpl. rewrite lookup_insert_eq, sk_closed_app, Hc. simpl.
    by rewrite insert_insert_eq, <- app_assoc. }
  rewrite Hr. simpl. do 3 (split; [done|]).
  intros Ho.
  assert (Hne : new <> buf sf).
  { intros ->. unfold sink_open in Ho. rewrite lookup_insert_eq in Ho.
    unfold sk_closed in Ho. rewrite existsb_app in Ho. simpl in Ho.
    by rewrite orb_true_r in Ho. }
  match goal with
  | |- context [run cs (?sf1, ?h1)] =>
      destruct (run_open cs sf1 h1 Ho)
        as (_ & Hw & _ & Hb & _ & _ & Hfr & _)
  end; simpl in *.
  repeat split.
  - done.
  - rewrite Hw. unfold written at 1. by rewrite lookup_insert_ne.
  - rewrite Hfr by done. by rewrite lookup_insert_eq.
  - unfold written at 1. rewrite Hfr by done. rewrite lookup_insert_eq.
    unfold written. rewrite Hs, sk_written_concat. simpl.
    by rewrite app_nil_r.
Qed.

Lemma change_spy_swaps_sink_witness :
  let sf := mkSpyFile (source hello_world) 0%nat PyNone 0 in
  let h : Heap := <[1%nat := []]> (<[0%nat := [SkWrite (b "old")]]> ∅) in
  (h !! buf sf = Some [SkWrite (b "old")]
   /\ sk_closed [SkWrite (b "old")] = false)
  /\ (change_spy 1%nat (sf, h)).2.2
     = <[0%nat := [SkWrite (b "old"); SkFlush; SkClose]]> h.
Proof.
  split; [split; reflexivity|].
  exact (proj1 (proj2 (proj2
           (change_spy_swaps_sink
              (mkSpyFile (source hello_world) 0%nat PyNone 0)
              (<[1%nat := []]> (<[0%nat := [SkWrite (b "old")]]> ∅))
              1%nat [SkWrite (b "old")] [] eq_refl eq_refl)))).
Defined.

(** C9.  Once the count has gone past an integer limit in force, it stays
    past it through every read, readline and change_spy, and no read or
    readline returns normally again.  As long as the sink is open each of
    those calls raises SizeLimitExceeded, after the bytes it read have been
    appended to the sink and added to the counter. *)
Theorem tripped_limit_is_permanent (sf : SpyFile) (h : Heap) :
  tripped sf = true ->
  (forall os,
     let r := exec os (sf, h) in
     tripped r.2.1 = true /\ forallb not_ok r.1 = true)
  /\ (forall cs,
        sink_open h (buf sf) = true ->
        let r := run cs (sf, h) in
        let delta := concat (src_run cs (fileobj sf)).1 in
        forallb is_size_limit r.1 = true
        /\ written r.2.2 (buf sf) = written h (buf sf) ++ delta
        /\ current_size r.2.1 = current_size sf + len delta)
  /\ (exists M,
        max_size sf = PyInt M /\ M < current_size sf
        /\ forall c,
             sink_open h (buf sf) = true ->
             let t := (src_answer c (fileobj sf)).1 in
             let r := do_call c (sf, h) in
             r.1 = Raise (SizeLimitExceeded (current_size sf + len t) M)
             /\ written r.2.2 (buf sf) = written h (buf sf) ++ t
             /\ current_size r.2.1 = current_size sf + len t).
Proof.
  intros Ht.
  destruct (tripped_check sf (current_size sf) Ht ltac:(lia))
    as (M & HM & HM0 & Hlt & _).
  split; [|split].
  - intros os. by apply exec_tripped.
  - intros cs Ho r delta.
    destruct (run_open cs sf h Ho) as (_ & Hw & Hcur & _ & _ & _ & _ & _ & _ & Hlim).
    fold r in Hw, Hcur. specialize (Hlim M HM HM0). fold r in Hlim.
    repeat split; try done.
    rewrite Hlim. by apply limit_outcomes_above.
  - exists M. repeat split; try done.
    all: destruct (do_call_limited M c sf h HM HM0 H) as (H1 & H2 & H3 & _);
      try done.
    rewrite H1. pose proof (len_nonneg (src_answer c (fileobj sf)).1).
    destruct (Z.ltb_spec M (current_size sf + len (src_answer c (fileobj sf)).1));
      [done | lia].
Qed.

Lemma tripped_limit_is_permanent_witness :
  let sf := mkSpyFile (mkSource hello_world 6 []) 0%nat (PyInt 5) 6 in
  let h : Heap := <[0%nat := [SkWrite (b "hello" ++ [NL])]]> ∅ in
  tripped sf = true
  /\ forallb not_ok
       (exec [Call (Readline None); ChangeSpy 7%nat; Call (Read None)] (sf, h)).1
     = true.
Proof.
  split; [reflexivity|].
  exact (proj2 (proj1 (tripped_limit_is_permanent
                  (mkSpyFile (mkSource hello_world 6 []) 0%nat (PyInt 5) 6)
                  (<[0%nat := [SkWrite (b "hello" ++ [NL])]]> ∅) eq_refl)
                  [Call (Readline None); ChangeSpy 7%nat; Call (Read None)])).
Defined.

(** C10.  A SpyFile constructed with a false [max_size], that is [None],
    [0] or the empty string, has no size limit: whatever is read, through
    any sequence of read, readline and change_spy calls, no call raises
    SizeLimitExceeded; and with an open sink every read and readline
    returns the bytes the source gave. *)
Theorem falsy_max_size_disables_limit
    (f : Source) (spyobj : option loc) (ms : pyval) (h : Heap) :
  truthy ms = false ->
  (ms = PyNone \/ ms = PyInt 0 \/ ms = PyStr EmptyString)
  /\ (forall os,
        forallb not_size_limit (exec os (spy f spyobj ms h)).1 = true)
  /\ (forall cs,
        spy_usable h spyobj = true ->
        (run cs (spy f spyobj ms h)).1 = map Ok (src_run cs f).1).
Proof.
  intros Hf. split; [by apply truthy_false|].
  assert (Hm : max_size (spy f spyobj ms h).1 = ms).
  { unfold spy, SpyFile_init. by destruct spyobj. }
  assert (Hfo : fileobj (spy f spyobj ms h).1 = f).
  { unfold spy, SpyFile_init. by destruct spyobj. }
  split.
  - intros os. destruct (spy f spyobj ms h) as [sf0 h0]. simpl in Hm.
    apply exec_falsy. by rewrite Hm.
  - intros cs Hu.
    assert (Ho : sink_open (spy f spyobj ms h).2 (buf (spy f spyobj ms h).1) = true).
    { unfold spy, SpyFile_init, spy_usable in *. destruct spyobj; simpl; [done|].
      unfold sink_open. by rewrite lookup_insert_eq. }
    destruct (spy f spyobj ms h) as [sf0 h0]. simpl in Hm, Hfo, Ho.
    destruct (run_open cs sf0 h0 Ho) as (_ & _ & _ & _ & _ & _ & _ & _ & Hok & _).
    rewrite Hok, Hfo; [done | by rewrite Hm].
Qed.

Lemma falsy_max_size_disables_limit_witness :
  truthy (PyInt 0) = false
  /\ forallb not_size_limit
       (exec [Call (Read None); Call (Readline None)]
          (spy (source hello_world) None (PyInt 0) ∅)).1 = true.
Proof.
  split; [reflexivity|].
  exact (proj1 (proj2 (falsy_max_size_disables_limit
                  (source hello_world) None (PyInt 0) ∅ eq_refl))
           [Call (Read None); Call (Readline None)]).
Defined.

(** * Properties of MemFile *)

Section MemFileFacts.

Import Mem.

Lemma write_at_end (data old : bytes) :
  write_at (length old) data old = old ++ data.
Proof.
  unfold write_at. rewrite firstn_all, Nat.sub_diag. simpl.
  rewrite skipn_all2 by lia. by rewrite app_nil_r.
Qed.

Lemma write_at_empty (data : bytes) : write_at 0 data [] = data.
Proof. unfold write_at. simpl. by rewrite drop_nil, app_nil_r. Qed.

#[local] Arguments write_at : simpl never.

(** [write], case by case. *)
Lemma write_unfold data m w :
  write data (m, w)
  = match _fileobj m with
    | InMemory s =>
        if maxsize m <? Z.of_nat (sio_pos s) + len data then
          let '(f, w') := TemporaryFile (tmpdir m) (prefix m) (suffix m) w in
          (Ok tt,
           (mkMemFile (maxsize m) (tmpdir m) (prefix m) (suffix m)
              (OnDisk (file_write data (file_write (sio_buf s) f))), w'))
        else
          (Ok tt,
           (mkMemFile (maxsize m) (tmpdir m) (prefix m) (suffix m)
              (InMemory (sio_write data s)), w))
    | OnDisk f =>
        (Ok tt,
         (mkMemFile (maxsize m) (tmpdir m) (prefix m) (suffix m)
            (OnDisk (file_write data f)), w))
    end.
Proof.
  unfold write, bind, get, in_memory, tell; simpl.
  destruct (_fileobj m) as [s|f] eqn:E; simpl.
  - destruct (maxsize m <? Z.of_nat (sio_pos s) + len data); simpl.
    + unfold _switch_to_disk, bind, getvalue, _open_tmpfile; simpl.
      by rewrite E.
    + unfold ret, fileobj_write, set_fileobj. by rewrite E.
  - unfold ret, fileobj_write, set_fileobj. simpl. by rewrite E.
Qed.

Lemma switch_unfold m w s :
  _fileobj m = InMemory s ->
  _switch_to_disk (m, w)
  = let '(f, w') := TemporaryFile (tmpdir m) (prefix m) (suffix m) w in
    (Ok tt,
     (mkMemFile (maxsize m) (tmpdir m) (prefix m) (suffix m)
        (OnDisk (file_write (sio_buf s) f)), w')).
Proof.
  intros E. unfold _switch_to_disk, bind, getvalue, _open_tmpfile; simpl.
  by rewrite E.
Qed.

Lemma write_ok data st : (write data st).1 = Ok tt.
Proof.
  destruct st as [m w]. rewrite write_unfold.
  destruct (_fileobj m) as [s|f]; [|done].
  by destruct (maxsize m <? _).
Qed.

Lemma write_maxsize data st : maxsize (write data st).2.1 = maxsize st.1.
Proof.
  destruct st as [m w]. rewrite write_unfold.
  destruct (_fileobj m) as [s|f]; [|done].
  by destruct (maxsize m <? _).
Qed.

Lemma migrates_eq data st :
  migrates data st
  = in_memory st.1 && (maxsize st.1 <? tell st.1 + len data).
Proof.
  destruct st as [m w]. unfold migrates. rewrite write_unfold.
  unfold in_memory, tell; simpl.
  destruct (_fileobj m) as [s|f]; simpl; [|done].
  by destruct (maxsize m <? _).
Qed.

Lemma write_on_disk data st :
  in_memory st.1 = false -> in_memory (write data st).2.1 = false.
Proof.
  destruct st as [m w]. rewrite write_unfold. unfold in_memory; simpl.
  by destruct (_fileobj m).
Qed.

Lemma migrates_on_disk data st :
  migrates data st = true -> in_memory (write data st).2.1 = false.
Proof.
  unfold migrates. intros [_ H]%andb_true_iff. by apply negb_true_iff.
Qed.

Lemma migrations_on_disk ds : forall st,
  in_memory st.1 = false -> migrations ds st = 0%nat.
Proof.
  induction ds as [|d ds IH]; intros st Hd; [done|].
  simpl. rewrite (IH _ (write_on_disk d st Hd)).
  unfold migrates. by rewrite Hd.
Qed.

Lemma migrations_at_most_once ds : forall st, (migrations ds st <= 1)%nat.
Proof.
  induction ds as [|d ds IH]; intros st; simpl; [lia|].
  destruct (migrates d st) eqn:E.
  - rewrite (migrations_on_disk ds _ (migrates_on_disk d st E)). lia.
  - specialize (IH (write d st).2). lia.
Qed.

Lemma tell_at_end m : at_end m = true -> tell m = len (contents m).
Proof.
  unfold at_end, tell, contents, len.
  destruct (_fileobj m); intros H%Nat.eqb_eq; by rewrite H.
Qed.

(** Appending: a write at the end adds [data] after the content, in
    whichever backing, and leaves the position at the end. *)
Lemma write_appends data st :
  at_end st.1 = true ->
  contents (write data st).2.1 = contents st.1 ++ data
  /\ at_end (write data st).2.1 = true.
Proof.
  destruct st as [m w]. rewrite write_unfold. unfold at_end, contents; simpl.
  destruct (_fileobj m) as [s|f]; intros H%Nat.eqb_eq; simpl.
  - destruct (maxsize m <? _); simpl.
    + rewrite write_at_empty, ?Nat.add_0_l, write_at_end, length_app.
      split; [done|]. by apply Nat.eqb_eq.
    + rewrite H, write_at_end, length_app. split; [done|]. by apply Nat.eqb_eq.
  - rewrite H, write_at_end, length_app. split; [done|]. by apply Nat.eqb_eq.
Qed.

(** A migrating write, from any in-memory state: the whole in-memory
    content is in the file before [data], which goes to the file. *)
Lemma migrating_write data st :
  migrates data st = true ->
  in_memory (_switch_to_disk st).2.1 = false
  /\ contents (_switch_to_disk st).2.1 = contents st.1
  /\ write data st = fileobj_write data (_switch_to_disk st).2
  /\ contents (write data st).2.1 = contents st.1 ++ data.
Proof.
  rewrite migrates_eq. destruct st as [m w]. unfold in_memory, tell, contents.
  rewrite write_unfold. simpl.
  destruct (_fileobj m) as [s|f] eqn:E; simpl; [|done].
  intros ->. rewrite (switch_unfold m w s E). simpl.
  by rewrite write_at_empty, ?Nat.add_0_l, write_at_end.
Qed.

Lemma writelines_cons d ds st :
  writelines (d :: ds) st = writelines ds (write d st).2.
Proof.
  simpl. unfold bind. pose proof (write_ok d st) as H.
  destruct (write d st) as [r st1]. simpl in *. by subst r.
Qed.

(** The state after a sequence of writes on a buffer that was at its end
    and within its threshold (or on disk and past it). *)
Lemma writelines_spec ds : forall st,
  at_end st.1 = true ->
  (in_memory st.1 = true <-> len (contents st.1) <= maxsize st.1) ->
  let r := writelines ds st in
  r.1 = Ok tt
  /\ maxsize r.2.1 = maxsize st.1
  /\ at_end r.2.1 = true
  /\ contents r.2.1 = contents st.1 ++ concat ds
  /\ (in_memory r.2.1 = true <-> len (contents r.2.1) <= maxsize st.1).
Proof.
  induction ds as [|d ds IH]; intros st He Hi r; subst r.
  - simpl. by rewrite app_nil_r.
  - rewrite writelines_cons.
    destruct (write_appends d st He) as [Hc He1].
    pose proof (write_maxsize d st) as Hm.
    assert (Hi1 : in_memory (write d st).2.1 = true
                  <-> len (contents (write d st).2.1) <= maxsize (write d st).2.1).
    { rewrite Hc, Hm, len_app. pose proof (len_nonneg d).
      destruct (migrates d st) eqn:Hmig.
      - rewrite (migrates_on_disk d st Hmig).
        rewrite migrates_eq, (tell_at_end _ He) in Hmig.
        apply andb_true_iff in Hmig as [_ Hlt%Z.ltb_lt]. split; [done | lia].
      - destruct (in_memory st.1) eqn:Hin.
        + rewrite migrates_eq, Hin, (tell_at_end _ He) in Hmig. simpl in Hmig.
          apply Z.ltb_ge in Hmig.
          unfold migrates in Hmig. 
          assert (in_memory (write d st).2.1 = true) as ->; [|done].
          destruct st as [m w]. rewrite write_unfold. unfold in_memory, tell in *.
          simpl in *. destruct (_fileobj m) as [s|f] eqn:E; [|done].
          unfold contents, at_end in *. rewrite E in *. simpl in *.
          apply Nat.eqb_eq in He. rewrite He. unfold len in Hmig.
          destruct (Z.ltb_spec (maxsize m) (Z.of_nat (length (sio_buf s)) + len d));
            [unfold len in *; lia | done].
        + rewrite (write_on_disk d st Hin). split; [done|].
          intros Hle. assert (len (contents st.1) <= maxsize st.1) by lia.
          apply Hi in H0. congruence. }
    destruct (IH _ He1 Hi1) as (H1 & H2 & H3 & H4 & H5).
    rewrite H1, H2, H3, H4, Hc, Hm. simpl. rewrite <- app_assoc.
    repeat split; try done.
    all: rewrite H4, Hc, Hm, <- app_assoc in H5; apply H5.
Qed.

End MemFileFacts.

(** ** The claims about MemFile *)

(** C3.  For a MemFile with threshold [T] (a byte count, so not negative)
    that has received the writes [ds], and any further write [data]:
    every write succeeds and the content read back is the bytes written,
    in order; the buffer is in memory exactly as long as the total length
    is within [T]; over the whole history there is at most one move to
    disk; the write of [data] is the one that moves the buffer exactly
    when the buffer is in memory and the in-memory length plus the length
    of [data] is greater than [T]; on that write the file first receives
    the whole in-memory content and then [data] itself; a [data] longer
    than [T] always ends on disk; an empty [data] never moves the buffer;
    and a buffer on disk stays on disk. *)
Theorem memfile_migrates_once
    (T : Z) (w : World) (ds : list bytes) (data : bytes) :
  0 <= T ->
  let st := (Mem.writelines ds (Mem.new T, w)).2 in
  let st' := (Mem.write data st).2 in
  (Mem.writelines ds (Mem.new T, w)).1 = Ok tt
  /\ Mem.contents st.1 = concat ds
  /\ (Mem.in_memory st.1 = true <-> len (concat ds) <= T)
  /\ (Mem.migrations (ds ++ [data]) (Mem.new T, w) <= 1)%nat
  /\ Mem.migrates data st
     = Mem.in_memory st.1 && (T <? len (concat ds) + len data)
  /\ (Mem.migrates data st = true ->
      Mem.in_memory (Mem._switch_to_disk st).2.1 = false
      /\ Mem.contents (Mem._switch_to_disk st).2.1 = concat ds
      /\ Mem.write data st = Mem.fileobj_write data (Mem._switch_to_disk st).2)
  /\ Mem.contents st'.1 = concat ds ++ data
  /\ (T < len data -> Mem.in_memory st'.1 = false)
  /\ (data = [] -> Mem.migrates data st = false)
  /\ (Mem.in_memory st.1 = false -> Mem.in_memory st'.1 = false).
Proof.
  intros HT st st'.
  assert (He0 : Mem.at_end (Mem.new T) = true) by done.
  assert (Hi0 : Mem.in_memory (Mem.new T, w).1 = true
                <-> len (Mem.contents (Mem.new T, w).1) <= Mem.maxsize (Mem.new T, w).1).
  { simpl. unfold len. simpl. split; [lia | done]. }
  destruct (writelines_spec ds (Mem.new T, w) He0 Hi0) as (Hok & Hm & He & Hc & Hi).
  fold st in Hm, He, Hc, Hi. simpl in Hm, Hc, Hi.
  rewrite Hc in Hi.
  destruct (write_appends data st He) as [Hc' He'].
  assert (Hmig : Mem.migrates data st
                 = Mem.in_memory st.1 && (T <? len (concat ds) + len data)).
  { by rewrite migrates_eq, Hm, (tell_at_end _ He), Hc. }
  split; [done|]. split; [done|]. split; [done|].
  split; [apply migrations_at_most_once|].
  split; [done|]. split; [|split; [|split; [|split]]].
  - intros Hmg. destruct (migrating_write data st Hmg) as (H1 & H2 & H3 & _).
    by rewrite H2, Hc.
  - subst st'. by rewrite Hc', Hc.
  - intros Hlt. destruct (Mem.in_memory st.1) eqn:Hin.
    + apply migrates_on_disk. rewrite Hmig. simpl.
      pose proof (len_nonneg (concat ds)). apply Z.ltb_lt. lia.
    + by apply write_on_disk.
  - intros ->. rewrite Hmig. destruct (Mem.in_memory st.1) eqn:Hin; [|done].
    simpl. apply Z.ltb_ge. unfold len at 2. simpl.
    assert (len (concat ds) <= T) by (by apply Hi). lia.
  - apply write_on_disk.
Qed.

Lemma memfile_migrates_once_witness :
  0 <= 8
  /\ Mem.contents
       (Mem.write (b "world")
          (Mem.writelines [b "hello"; b ", "] (Mem.new 8, mkWorld ∅ ∅ [])).2).2.1
     = concat [b "hello"; b ", "] ++ b "world".
Proof.
  split; [lia|].
  exact (proj1 (proj2 (proj2 (proj2 (proj2 (proj2 (proj2
           (memfile_migrates_once 8 (mkWorld ∅ ∅ []) [b "hello"; b ", "]
              (b "world") ltac:(lia))))))))).
Defined.

(** C6 (as amended).  [close] has no handling of a failed clean-up.  On a
    buffer that moved to disk it records the removal with [logging.info]
    and calls [os.unlink] on the file object's name: when that path
    exists it is removed and [close] completes; when it does not,
    [os.unlink] raises OSError and so does [close].  The buffer and the
    open descriptors are left as they were.  On a buffer still in memory
    [close] does nothing. *)
Theorem close_propagates_unlink_failure (m : Mem.MemFile) (w : World) :
  let r := Mem.close (m, w) in
  r.2.1 = m
  /\ fds r.2.2 = fds w
  /\ match Mem._fileobj m with
     | Mem.InMemory _ => r.1 = Ok tt /\ r.2.2 = w
     | Mem.OnDisk f =>
         log r.2.2 = log w ++ ["removing temp file " ++ f_name f]%string
         /\ if bool_decide (f_name f ∈ fs w)
            then r.1 = Ok tt /\ fs r.2.2 = fs w ∖ {[f_name f]}
            else r.1 = Raise OSError /\ fs r.2.2 = fs w
     end.
Proof.
  unfold Mem.close, bind, get; simpl.
  destruct (Mem._fileobj m) as [s|f]; simpl; [done|].
  unfold os_unlink, logging_info; simpl.
  by destruct (bool_decide (f_name f ∈ fs w)).
Qed.

(** C6, the claim as stated, fails: the buffer below has moved to disk,
    no path named like its file exists, and [close] raises OSError. *)
Lemma close_fails_counterexample :
  let st := (Mem.write (b "hello") (Mem.new 4, mkWorld ∅ ∅ [])).2 in
  Mem.in_memory st.1 = false
  /\ (Mem.close st).1 = Raise OSError
  /\ is_ok (Mem.close st).1 = false.
Proof. vm_compute. repeat split; done. Qed.

(** C5, the code at the failing input.  A MemFile with [maxsize = 4]
    receives "hello" and moves to a temporary file, whose [name] is
    "<fdopen>".  [close] then raises OSError, removes nothing, and leaves
    the descriptor open; and had a file of that very name been in the
    working directory, [close] would have removed it.  Closing a buffer
    that never moved changes nothing. *)
Lemma close_after_migration :
  let w0 := mkWorld {[ "data.txt"%string ]} ∅ [] in
  let st := (Mem.write (b "hello") (Mem.new 4, w0)).2 in
  let r := Mem.close st in
  Mem.in_memory st.1 = false
  /\ fs st.2 = fs w0
  /\ r.1 = Raise OSError
  /\ fs r.2.2 = fs w0
  /\ (exists fd, Mem.handle r.2.1 = Some fd /\ fd ∈ fds r.2.2)
  /\ (let w1 := mkWorld {[ "<fdopen>"%string ]} ∅ [] in
      let r1 := Mem.close (Mem.write (b "hello") (Mem.new 4, w1)).2 in
      r1.1 = Ok tt /\ fs r1.2.2 = ∅)
  /\ Mem.close (Mem.write (b "hi") (Mem.new 4, w0)).2
     = (Ok tt, (Mem.write (b "hi") (Mem.new 4, w0)).2).
Proof.
  vm_compute. repeat split; try done.
  eexists. split; [done|]. vm_compute. done.
Qed.

(** * Properties of fileiter *)

Section FileiterFacts.

Lemma src_take_remaining k c f :
  remaining (src_take k c f).2 = drop (length (src_take k c f).1) (remaining f).
Proof. unfold remaining, src_take; simpl. by rewrite drop_drop. Qed.

Lemma src_read_remaining n f :
  remaining (src_read n f).2 = drop (length (src_read n f).1) (remaining f).
Proof. apply src_take_remaining. Qed.

Lemma src_read_requests n f :
  requests (src_read n f).2 = requests f ++ [n].
Proof. unfold requests, src_read, src_take; simpl. by rewrite map_app. Qed.

Lemma src_read_le n f :
  (length (src_read n f).1 <= length (remaining f))%nat.
Proof. unfold src_read, src_take; simpl. rewrite length_take. lia. Qed.

Lemma src_read_length n f :
  0 <= n ->
  length (src_read (Some n) f).1
  = Nat.min (Z.to_nat n) (length (remaining f)).
Proof.
  intros Hn. unfold src_read, src_take, clip; simpl.
  destruct (Z.ltb_spec n 0); [lia|].
  rewrite length_take. lia.
Qed.

Lemma src_read_text n f :
  0 <= n -> (src_read (Some n) f).1 = take (Z.to_nat n) (remaining f).
Proof.
  intros Hn. unfold src_read, src_take, clip; simpl.
  destruct (Z.ltb_spec n 0); [lia|].
  destruct (Nat.min_spec (Z.to_nat n) (length (remaining f))) as [[_ ->]|[Hle ->]];
    [done|].
  by rewrite !take_ge by lia.
Qed.

(** [next] on a generator that has not finished, in terms of the bytes
    passed on so far. *)
Lemma next_unfold g :
  pc g <> Finished ->
  next g
  = if yielded g <? size g then
      let nbytes := Z.min (size g - yielded g) (chunk_size g) in
      let a := src_read (Some nbytes) (file g) in
      match a.1 with
      | [] => (None, mkFrame a.2 (size g) (chunk_size g) (yielded g) Finished)
      | _ :: _ =>
          (Some a.1,
           mkFrame a.2 (size g) (chunk_size g) (yielded g) (AtYield a.1))
      end
    else (None, mkFrame (file g) (size g) (chunk_size g) (yielded g) Finished).
Proof.
  intros Hpc. unfold next, yielded, loop.
  destruct (pc g) as [|content|]; [| |done];
    cbn [completed size chunk_size file pc].
  all: match goal with |- context [?x <? size ?g0] => destruct (x <? size g0) end;
    [|done].
  all: match goal with
       | |- context [src_read ?n ?f] => destruct (src_read n f) as [t f']
       end; cbn [fst snd].
  all: by destruct t.
Qed.

Opaque src_read.

Ltac destruct_read :=
  match goal with
  | |- context [src_read ?n ?f] =>
      let t := fresh "t" in
      let f' := fresh "f'" in
      destruct (src_read n f) as [t f'] eqn:?
  end.

Lemma yielded_at_yield f n c k t :
  yielded (mkFrame f n c k (AtYield t)) = k + len t.
Proof. done. Qed.

Lemma pc_cases g : pc g = Finished \/ pc g <> Finished.
Proof. destruct (pc g); auto. Qed.

Lemma next_params g :
  size (next g).2 = size g /\ chunk_size (next g).2 = chunk_size g.
Proof.
  destruct (pc_cases g) as [E|E].
  - unfold next. by rewrite E.
  - rewrite (next_unfold g E).
    destruct (yielded g <? size g); [|done]. simpl.
    destruct_read. simpl. by destruct t.
Qed.

(** The bytes passed on never exceed [size]. *)
Lemma next_bounded g :
  0 <= chunk_size g -> 0 <= yielded g <= size g ->
  0 <= yielded (next g).2 <= size g.
Proof.
  intros HC Hy.
  destruct (pc_cases g) as [E|E].
  - unfold next. by rewrite E.
  - rewrite (next_unfold g E).
    destruct (Z.ltb_spec (yielded g) (size g)); [|done]. simpl.
    pose proof (src_read_length (Z.min (size g - yielded g) (chunk_size g))
                  (file g) ltac:(lia)) as Hlen.
    destruct (src_read _ _).1 as [|x t] eqn:Et; [done|].
    simpl. rewrite yielded_at_yield. unfold len. rewrite Hlen. lia.
Qed.

Lemma resumed_params k : forall g,
  size (resumed k g) = size g /\ chunk_size (resumed k g) = chunk_size g.
Proof.
  induction k as [|k IH]; intros g; [done|]. simpl.
  destruct (IH (next g).2) as [-> ->]. apply next_params.
Qed.

Lemma resumed_bounded k : forall g,
  0 <= chunk_size g -> 0 <= yielded g <= size g ->
  0 <= yielded (resumed k g) <= size g.
Proof.
  induction k as [|k IH]; intros g HC Hy; [done|]. simpl.
  destruct (next_params g) as [Hs Hc].
  rewrite <- Hs. apply IH; rewrite ?Hs, ?Hc; [done|].
  by apply next_bounded.
Qed.

(** Enough fuel reaches the end of the generator. *)
Lemma drain_finishes fuel : forall g,
  (length (remaining (file g)) < fuel)%nat ->
  pc (drain fuel g).2 = Finished.
Proof.
  induction fuel as [|fuel IH]; intros g Hlt; [lia|]. simpl.
  destruct (pc_cases g) as [E|E].
  - unfold next. by rewrite E.
  - rewrite (next_unfold g E).
    destruct (yielded g <? size g); [|done]. simpl.
    pose proof (src_read_remaining
                  (Some (Z.min (size g - yielded g) (chunk_size g)))
                  (file g)) as Hrem.
    pose proof (src_read_le
                  (Some (Z.min (size g - yielded g) (chunk_size g)))
                  (file g)) as Hle.
    destruct (src_read _ _) as [t f']. simpl in *.
    destruct t as [|x t]; [done|].
    match goal with
    | |- context [drain fuel ?g1] =>
        specialize (IH g1); destruct (drain fuel g1) as [cs g2]
    end.
    simpl in *. apply IH. rewrite Hrem, length_drop. simpl. lia.
Qed.

(** With enough fuel the chunks are, end to end, the first [size] bytes
    of what the file had left (or all of it when it has fewer), each
    chunk non-empty and no longer than [chunk_size]. *)
Lemma drain_chunks fuel : forall g,
  (length (remaining (file g)) < fuel)%nat ->
  pc g <> Finished ->
  0 < chunk_size g -> 0 <= yielded g <= size g ->
  concat (drain fuel g).1
  = take (Z.to_nat (size g - yielded g)) (remaining (file g))
  /\ Forall (fun c => 0 < len c <= chunk_size g) (drain fuel g).1.
Proof.
  induction fuel as [|fuel IH]; intros g Hlt Hpc HC Hy; [lia|]. simpl.
  rewrite (next_unfold g Hpc).
  destruct (Z.ltb_spec (yielded g) (size g)); simpl.
  - set (n := Z.min (size g - yielded g) (chunk_size g)).
    assert (Hn : 0 < n) by (unfold n; lia).
    pose proof (src_read_text n (file g) ltac:(lia)) as Ht.
    pose proof (src_read_length n (file g) ltac:(lia)) as Hl.
    pose proof (src_read_remaining (Some n) (file g)) as Hrem.
    destruct (src_read (Some n) (file g)) as [t f']. simpl in *.
    destruct t as [|x t].
    + simpl in *. split; [|done].
      assert (length (remaining (file g)) = 0%nat) as Hz by lia.
      destruct (remaining (file g)); [by rewrite take_nil | done].
    + match goal with
      | |- context [drain fuel ?g1] =>
          specialize (IH g1); destruct (drain fuel g1) as [cs g2]
      end.
      simpl in IH.
      assert (Hlen : len (x :: t) <= n) by (unfold len; rewrite Hl; lia).
      destruct IH as [IHc IHf].
      * rewrite Hrem, length_drop. simpl in Hl |- *. lia.
      * done.
      * done.
      * rewrite yielded_at_yield.
        pose proof (len_nonneg (x :: t)). unfold n in Hlen. lia.
      * simpl. split.
        -- rewrite IHc, Hrem, yielded_at_yield.
           replace (Z.to_nat (size g - yielded g))
             with (length (x :: t) + Z.to_nat (size g - (yielded g + len (x :: t))))%nat
             by (unfold len in *; unfold n in Hlen; lia).
           rewrite take_add_drop.
           replace (take (length (x :: t)) (remaining (file g))) with (x :: t);
             [done|].
           rewrite Ht. by rewrite take_length_take.
        -- constructor; [|done].
           pose proof (len_nonneg t).
           unfold len in *. simpl length in *. unfold n in Hlen. lia.
  - split; [|done].
    replace (size g - yielded g) with 0 by lia. by rewrite take_0.
Qed.

(** One resumption of a generator that has not finished. *)
Lemma next_step g :
  pc g <> Finished ->
  if yielded g <? size g then
    let n := Z.min (size g - yielded g) (chunk_size g) in
    let a := src_read (Some n) (file g) in
    requests (file (next g).2) = requests (file g) ++ [Some n]
    /\ match a.1 with
       | [] =>
           (next g).1 = None /\ pc (next g).2 = Finished
           /\ yielded (next g).2 = yielded g
       | _ :: _ =>
           (next g).1 = Some a.1 /\ yielded (next g).2 = yielded g + len a.1
       end
  else
    (next g).1 = None /\ pc (next g).2 = Finished
    /\ file (next g).2 = file g.
Proof.
  intros Hpc. rewrite (next_unfold g Hpc).
  destruct (yielded g <? size g); [|done]. simpl.
  pose proof (src_read_requests
                (Some (Z.min (size g - yielded g) (chunk_size g))) (file g)) as Hq.
  destruct (src_read _ _) as [t f']. simpl in *.
  by destruct t.
Qed.

(** With a chunk size of 0 nothing is yielded. *)
Lemma drain_no_chunk fuel g :
  pc g <> Finished -> chunk_size g = 0 -> 0 <= yielded g <= size g ->
  (drain (S fuel) g).1 = [].
Proof.
  intros Hpc HC Hy. simpl. rewrite (next_unfold g Hpc).
  destruct (Z.ltb_spec (yielded g) (size g)); [|done]. simpl.
  pose proof (src_read_length (Z.min (size g - yielded g) (chunk_size g))
                (file g) ltac:(lia)) as Hl.
  destruct (src_read _ _) as [t f']. simpl in *.
  destruct t; [done|]. simpl in Hl. lia.
Qed.

Transparent src_read.

End FileiterFacts.

(** ** The claim about fileiter *)

(** C7.  For every stream, every size [N] and chunk size [C] (byte counts,
    so not negative): after any number of resumptions the bytes passed on
    are between 0 and [N]; a resumption of a generator that has passed on
    fewer than [N] bytes asks the stream for [min (N - consumed) C] bytes,
    ends the iteration if none come back, and otherwise yields them and
    counts them; a resumption with [consumed = N] ends the iteration
    without touching the stream.  The iteration always ends; its chunks
    are non-empty, at most [C] bytes long and, end to end, the first [N]
    bytes the stream had (all of them if it had fewer).  Over a stream of
    25 bytes, size 25 and chunk size 10 give chunks of 10, 10 and 5 bytes;
    over a stream of only 17 bytes they give 10 and 7. *)
Theorem fileiter_chunks (f : Source) (N C : Z) :
  0 <= N -> 0 <= C ->
  let g0 := fileiter f N C in
  (forall k,
     let g := resumed k g0 in
     0 <= yielded g <= N
     /\ (pc g = Finished -> next g = (None, g))
     /\ (pc g <> Finished ->
         if yielded g <? N then
           let n := Z.min (N - yielded g) C in
           let a := src_read (Some n) (file g) in
           requests (file (next g).2) = requests (file g) ++ [Some n]
           /\ match a.1 with
              | [] =>
                  (next g).1 = None /\ pc (next g).2 = Finished
                  /\ yielded (next g).2 = yielded g
              | _ :: _ =>
                  (next g).1 = Some a.1
                  /\ yielded (next g).2 = yielded g + len a.1
              end
         else
           yielded g = N
           /\ (next g).1 = None /\ pc (next g).2 = Finished
           /\ file (next g).2 = file g))
  /\ (let r := chunks g0 in
      pc r.2 = Finished
      /\ Forall (fun c => 0 < len c <= C) r.1
      /\ (0 < C -> concat r.1 = take (Z.to_nat N) (remaining f)))
  /\ (forall S : bytes,
        length S = 25%nat ->
        let r := chunks (fileiter (source S) 25 10) in
        map length r.1 = [10; 10; 5]%nat /\ concat r.1 = S
        /\ pc r.2 = Finished)
  /\ (forall S : bytes,
        length S = 17%nat ->
        let r := chunks (fileiter (source S) 25 10) in
        map length r.1 = [10; 7]%nat /\ concat r.1 = S
        /\ pc r.2 = Finished).
Proof.
  intros HN HC g0.
  assert (Hy0 : 0 <= yielded g0 <= size g0)
    by (unfold g0, fileiter, yielded; simpl; lia).
  split; [|split; [|split]].
  - intros k g.
    destruct (resumed_params k g0) as [Hs Hc]. fold g in Hs, Hc. simpl in Hs, Hc.
    pose proof (resumed_bounded k g0 HC Hy0) as Hb. fold g in Hb. simpl in Hb.
    split; [done|]. split.
    + intros E. unfold next. by rewrite E.
    + intros Hpc. pose proof (next_step g Hpc) as Hn. rewrite Hs, Hc in Hn.
      destruct (Z.ltb_spec (yielded g) N); [done|].
      split; [lia | done].
  - intros r. subst r. unfold chunks. split; [|split].
    + apply drain_finishes. lia.
    + destruct (Z.eq_dec C 0) as [->|HC0].
      * by rewrite (drain_no_chunk _ g0).
      * apply (drain_chunks _ g0); simpl; try done; lia.
    + intros HC0.
      destruct (drain_chunks (S (length (remaining (file g0)))) g0) as [-> _];
        simpl; try done; try lia.
      by rewrite Z.sub_0_r.
  - intros S HS.
    do 25 (destruct S as [|? S]; [discriminate HS|]).
    destruct S; [|discriminate HS]. by vm_compute.
  - intros S HS.
    do 17 (destruct S as [|? S]; [discriminate HS|]).
    destruct S; [|discriminate HS]. by vm_compute.
Qed.

Lemma fileiter_chunks_witness :
  (0 <= 25 /\ 0 <= 10)
  /\ pc (chunks (fileiter (source hello_world) 25 10)).2 = Finished.
Proof.
  split; [lia|].
  exact (proj1 (proj1 (proj2 (fileiter_chunks (source hello_world) 25 10
                                 ltac:(lia) ltac:(lia))))).
Defined.

(** * Further properties of SpyFile *)

Section SpyFileMore.

Lemma src_answer_remaining c f :
  remaining (src_answer c f).2
  = drop (length (src_answer c f).1) (remaining f).
Proof. destruct c; apply src_take_remaining. Qed.

Lemma src_answer_take c f :
  (src_answer c f).1 = take (length (src_answer c f).1) (remaining f).
Proof.
  destruct c; unfold src_answer, src_read, src_readline, src_take; simpl;
    by rewrite take_length_take.
Qed.

Lemma src_answer_le c f :
  (length (src_answer c f).1 <= length (remaining f))%nat.
Proof.
  destruct c; unfold src_answer, src_read, src_readline, src_take; simpl;
    rewrite length_take; lia.
Qed.

Lemma line_len_pos (l : bytes) : l <> [] -> (0 < line_len l)%nat.
Proof. destruct l as [|c l]; [done|]. simpl. destruct (Byte.eqb c NL); lia. Qed.

(** [readline()] gives an empty string only at the end of the source. *)
Lemma readline_empty f :
  (src_readline None f).1 = [] -> remaining f = [].
Proof.
  unfold src_readline, src_take, clip; simpl.
  destruct (remaining f) as [|c l] eqn:E; [done|].
  pose proof (line_len_pos (c :: l) ltac:(done)) as Hp.
  destruct (line_len (c :: l)); [lia | done].
Qed.

Lemma line_len_le (l : bytes) : (line_len l <= length l)%nat.
Proof.
  induction l as [|c l IH]; [done|]. simpl. destruct (Byte.eqb c NL); lia.
Qed.

(** The first line of a non-empty byte string is what [line_len] measures. *)
Lemma split_lines_unfold (l : bytes) :
  l <> [] ->
  split_lines l = take (line_len l) l :: split_lines (drop (line_len l) l).
Proof.
  induction l as [|c l IH]; [done|]. intros _. simpl.
  destruct (Byte.eqb c NL); [done|].
  destruct l as [|c' l']; [done|].
  by rewrite IH.
Qed.

Lemma split_lines_concat (l : bytes) : concat (split_lines l) = l.
Proof.
  induction l as [|c l IH]; [done|]. simpl.
  destruct (Byte.eqb c NL); simpl; [by rewrite IH|].
  destruct (split_lines l) as [|line rest]; simpl in *; by rewrite <- IH.
Qed.

Lemma split_lines_nonempty (l : bytes) :
  Forall (fun x => x <> []) (split_lines l).
Proof.
  induction l as [|c l IH]; [constructor|]. simpl.
  destruct (Byte.eqb c NL); [by constructor|].
  destruct (split_lines l) as [|line rest]; [by repeat constructor|].
  inversion IH; subst. by constructor.
Qed.

(** Every element of [split_lines l] is one line: it has no terminator
    before its last byte. *)
Lemma split_lines_single (l : bytes) :
  Forall (fun x => line_len x = length x) (split_lines l).
Proof.
  induction l as [|c l IH]; [constructor|]. simpl.
  destruct (Byte.eqb c NL) eqn:E.
  { constructor; [simpl; by rewrite E | done]. }
  destruct (split_lines l) as [|line rest].
  - repeat constructor. simpl. by rewrite E.
  - inversion IH; subst. constructor; [|done]. simpl. rewrite E. by f_equal.
Qed.

(** Every element of [split_lines l] but the last ends with the
    terminator. *)
Lemma split_lines_terminated (l : bytes) : forall i x,
  split_lines l !! i = Some x ->
  (S i < length (split_lines l))%nat ->
  last x = Some NL.
Proof.
  induction l as [|c l IH]; intros i x; [done|]. simpl.
  destruct (Byte.eqb c NL) eqn:E.
  - destruct i as [|i]; simpl.
    + intros [= <-] _. simpl. f_equal.
      by apply Byte.byte_dec_bl.
    + intros Hx Hi. apply (IH i x Hx). lia.
  - pose proof (split_lines_nonempty l) as Hne.
    destruct (split_lines l) as [|line rest].
    + destruct i; simpl; [lia | done].
    + destruct i as [|i]; simpl.
      * intros [= <-] Hi. inversion Hne; subst.
        destruct line as [|b line]; [done|].
        apply (IH 0%nat (b :: line) eq_refl). simpl. lia.
      * intros Hx Hi. apply (IH (S i) x Hx). simpl. lia.
Qed.

(** [readline()] takes the first of the lines left, and leaves the others. *)
Lemma readline_first_line f :
  remaining f <> [] ->
  split_lines (remaining f)
  = (src_answer (Readline None) f).1
    :: split_lines (remaining (src_answer (Readline None) f).2).
Proof.
  intros Hne. rewrite src_answer_remaining.
  change (src_answer (Readline None) f).1
    with (take (line_len (remaining f)) (remaining f)).
  rewrite length_take, Nat.min_l by apply line_len_le.
  by apply split_lines_unfold.
Qed.

(** [read_until] stops after the first line that takes the count past the
    limit: it is the first [S k] lines, and none of the first [k] crossed. *)
Lemma read_until_spec (M : Z) (ls : list bytes) : forall cur,
  exists k : nat,
    read_until M cur ls = concat (take (S k) ls)
    /\ forall j, (j < k)%nat -> cur + len (concat (take (S j) ls)) <= M.
Proof.
  induction ls as [|l ls IH]; intros cur.
  - exists 0%nat. split; [done | lia].
  - simpl read_until. destruct (Z.ltb_spec M (cur + len l)) as [Hlt|Hge].
    + exists 0%nat. split; [simpl; by rewrite app_nil_r | lia].
    + destruct (IH (cur + len l)) as (k & Hk & Hmin).
      exists (S k). split; [by rewrite Hk|].
      intros [|j] Hj.
      * simpl. rewrite app_nil_r. lia.
      * change (concat (take (S (S j)) (l :: ls)))
          with (l ++ concat (take (S j) ls)).
        rewrite len_app. specialize (Hmin j ltac:(lia)). lia.
Qed.

(** A call on a closed sink. *)
Lemma do_call_closed c sf h s :
  h !! buf sf = Some s -> sk_closed s = true ->
  do_call c (sf, h)
  = (Raise ValueError,
     (mkSpyFile (src_answer c (fileobj sf)).2 (buf sf) (max_size sf)
        (current_size sf), h)).
Proof.
  intros Hs Hc.
  destruct c as [n|n]; unfold do_call, src_answer, read, readline, bind, src_lift.
  all: match goal with
       | |- context [src_read ?a ?f] => destruct (src_read a f) as [t f']
       | |- context [src_readline ?a ?f] => destruct (src_readline a f) as [t f']
       end.
  all: unfold buf_do, sink_do; simpl; by rewrite Hs, Hc.
Qed.

Lemma change_spy_closed l sf h s :
  h !! buf sf = Some s -> sk_closed s = true ->
  change_spy l (sf, h) = (Raise ValueError, (sf, h)).
Proof.
  intros Hs Hc. unfold change_spy, bind, buf_do, sink_do; simpl.
  by rewrite Hs, Hc.
Qed.

Lemma exec_closed os : forall sf h s,
  h !! buf sf = Some s -> sk_closed s = true ->
  let r := exec os (sf, h) in
  Forall (fun x => x = Raise ValueError) r.1
  /\ buf r.2.1 = buf sf
  /\ max_size r.2.1 = max_size sf
  /\ current_size r.2.1 = current_size sf
  /\ r.2.2 = h.
Proof.
  induction os as [|o os IH]; intros sf h s Hs Hc; [done|].
  rewrite do_op_cons. destruct o as [c|l]; simpl.
  - rewrite (do_call_closed c sf h s Hs Hc). simpl.
    match goal with
    | |- context [exec os (?sf1, h)] =>
        destruct (IH sf1 h s Hs Hc) as (H1 & H2 & H3 & H4 & H5)
    end.
    repeat split; try done. by constructor.
  - rewrite (change_spy_closed l sf h s Hs Hc). simpl.
    by apply (IH sf h s).
Qed.

Lemma iter_lines_step k st :
  iter_lines (S k) st
  = match readline None st with
    | (Ok [], st1) => (Ok [], st1)
    | (Ok (x :: t), st1) =>
        match iter_lines k st1 with
        | (Ok rest, st2) => (Ok ((x :: t) :: rest), st2)
        | (Raise e, st2) => (Raise e, st2)
        end
    | (Raise e, st1) => (Raise e, st1)
    end.
Proof.
  simpl. unfold bind. by destruct (readline None st) as [[[|x t]|e] st1].
Qed.

(** The loop of [readlines] when no call trips the limit. *)
Lemma iter_lines_all passes : forall sf h,
  (length (remaining (fileobj sf)) < passes)%nat ->
  sink_open h (buf sf) = true ->
  (forall x, x <= current_size sf + len (remaining (fileobj sf)) ->
             check (max_size sf) x = Ok tt) ->
  let r := iter_lines passes (sf, h) in
  r.1 = Ok (split_lines (remaining (fileobj sf)))
  /\ remaining (fileobj r.2.1) = []
  /\ src_data (fileobj r.2.1) = src_data (fileobj sf)
  /\ written r.2.2 (buf sf) = written h (buf sf) ++ remaining (fileobj sf)
  /\ current_size r.2.1 = current_size sf + len (remaining (fileobj sf))
  /\ buf r.2.1 = buf sf.
Proof.
  induction passes as [|k IH]; intros sf h Hlt Ho Hchk r; subst r; [lia|].
  rewrite iter_lines_step.
  destruct (do_call_open_facts (Readline None) sf h Ho)
    as (Hf & Hb & Hm & Hcur & Hw & Ho1 & _ & Hr).
  change (do_call (Readline None) (sf, h)) with (readline None (sf, h)) in *.
  pose proof (src_answer_remaining (Readline None) (fileobj sf)) as Hrem.
  pose proof (src_answer_take (Readline None) (fileobj sf)) as Htk.
  pose proof (src_answer_le (Readline None) (fileobj sf)) as Hle.
  pose proof (src_answer_data (Readline None) (fileobj sf)) as Hdata.
  pose proof (readline_first_line (fileobj sf)) as Hfl.
  pose proof (readline_empty (fileobj sf)) as Hemp.
  change (src_readline None (fileobj sf)) with (src_answer (Readline None) (fileobj sf)) in Hemp.
  destruct (src_answer (Readline None) (fileobj sf)) as [t f1].
  destruct (readline None (sf, h)) as [r1 [sf1 h1]].
  cbn [fst snd] in *. subst f1.
  rewrite Hchk in Hr by (unfold len; lia). subst r1.
  destruct t as [|x t'].
  - specialize (Hemp eq_refl). cbn [fst snd].
    rewrite Hemp in *. rewrite Hrem, Hdata, Hw, Hcur.
    unfold len. simpl. rewrite !app_nil_r, Z.add_0_r.
    repeat split; try done.
  - rewrite <- Hb in Ho1.
    assert (Hne : remaining (fileobj sf) <> []).
    { intros E. rewrite E in Htk. by rewrite take_nil in Htk. }
    specialize (Hfl Hne).
    destruct (IH sf1 h1) as (H1 & H4 & H5 & H6 & H7 & H8).
    + rewrite Hrem, length_drop. simpl in Hle |- *. lia.
    + done.
    + intros y Hy. rewrite Hm. apply Hchk.
      rewrite Hrem, Hcur in Hy. unfold len in *.
      rewrite length_drop in Hy. simpl in Hle, Hy |- *. lia.
    + destruct (iter_lines k (sf1, h1)) as [r2 [sf2 h2]].
      cbn [fst snd] in *. subst r2.
      assert (Hsplit : remaining (fileobj sf)
                       = (x :: t') ++ drop (length (x :: t')) (remaining (fileobj sf))).
      { rewrite <- (take_drop (length (x :: t')) (remaining (fileobj sf))) at 1.
        by rewrite <- Htk. }
      assert (Hlen : len (remaining (fileobj sf))
                     = len (x :: t')
                       + len (drop (length (x :: t')) (remaining (fileobj sf)))).
      { rewrite Hsplit at 1. apply len_app. }
      cbn [fst snd]. rewrite Hb in *.
      split; [by rewrite Hfl|].
      split; [done|].
      split; [by rewrite H5|].
      split; [rewrite H6, Hw, Hrem, <- app_assoc; by rewrite <- Hsplit|].
      split; [|done].
      rewrite H7, Hcur, Hrem, Hlen. lia.
Qed.

(** The loop of [readlines] when the bytes left take the count past the
    limit: what it consumes is [read_until] of the lines left. *)
Lemma iter_lines_limit passes : forall sf h M,
  (length (remaining (fileobj sf)) < passes)%nat ->
  sink_open h (buf sf) = true ->
  max_size sf = PyInt M -> M <> 0 ->
  M < current_size sf + len (remaining (fileobj sf)) ->
  let r := iter_lines passes (sf, h) in
  let d := read_until M (current_size sf)
             (split_lines (remaining (fileobj sf))) in
  r.1 = Raise (SizeLimitExceeded (current_size sf + len d) M)
  /\ M < current_size sf + len d
  /\ consumed (fileobj r.2.1) = consumed (fileobj sf) ++ d
  /\ written r.2.2 (buf sf) = written h (buf sf) ++ d
  /\ current_size r.2.1 = current_size sf + len d.
Proof.
  induction passes as [|k IH]; intros sf h M Hlt Ho HM HM0 Hover r d;
    subst r d; [lia|].
  rewrite iter_lines_step.
  destruct (do_call_limited M (Readline None) sf h HM HM0 Ho)
    as (Hr & Hcur & Hw & Hf).
  destruct (do_call_open_facts (Readline None) sf h Ho)
    as (_ & Hb & Hm & _ & _ & Ho1 & _ & _).
  change (do_call (Readline None) (sf, h)) with (readline None (sf, h)) in *.
  pose proof (src_answer_remaining (Readline None) (fileobj sf)) as Hrem.
  pose proof (src_answer_consumed (Readline None) (fileobj sf)) as Hcons.
  pose proof (src_answer_le (Readline None) (fileobj sf)) as Hle.
  pose proof (readline_first_line (fileobj sf)) as Hfl.
  pose proof (readline_empty (fileobj sf)) as Hemp.
  change (src_readline None (fileobj sf)) with (src_answer (Readline None) (fileobj sf)) in Hemp.
  destruct (src_answer (Readline None) (fileobj sf)) as [t f1].
  destruct (readline None (sf, h)) as [r1 [sf1 h1]].
  cbn [fst snd] in *. subst f1.
  destruct (Z.ltb_spec M (current_size sf + len t)) as [Hlt1|Hge1].
  - assert (Hd : read_until M (current_size sf)
                   (split_lines (remaining (fileobj sf))) = t).
    { destruct (remaining (fileobj sf)) as [|c l] eqn:E.
      - destruct t; [done | simpl in Hle; lia].
      - rewrite Hfl by done. simpl read_until.
        by destruct (Z.ltb_spec M (current_size sf + len t)); [|lia]. }
    subst r1. rewrite Hd. cbn [fst snd]. rewrite Hcons. by repeat split.
  - subst r1. destruct t as [|x t'].
    + specialize (Hemp eq_refl). rewrite Hemp in Hover.
      unfold len in *. simpl in *. lia.
    + rewrite <- Hb in Ho1.
      assert (Hne : remaining (fileobj sf) <> []).
      { intros E. rewrite E in Hle. simpl in Hle. lia. }
      specialize (Hfl Hne).
      destruct (IH sf1 h1 M) as (H1 & H2 & H3 & H4 & H5).
      * rewrite Hrem, length_drop. simpl in Hle |- *. lia.
      * done.
      * by rewrite Hm.
      * done.
      * rewrite Hrem, Hcur. unfold len in *. rewrite length_drop.
        simpl in Hle |- *. lia.
      * assert (Hd : read_until M (current_size sf)
                       (split_lines (remaining (fileobj sf)))
                     = (x :: t')
                       ++ read_until M (current_size sf1)
                            (split_lines (remaining (fileobj sf1)))).
        { rewrite Hfl. simpl read_until.
          destruct (Z.ltb_spec M (current_size sf + len (x :: t'))); [lia|].
          by rewrite Hcur. }
        destruct (iter_lines k (sf1, h1)) as [r2 [sf2 h2]].
        cbn [fst snd] in *. subst r2.
        rewrite Hd. cbn [fst snd].
        rewrite Hb in *. rewrite H3, H4, H5, Hcons, Hw, Hcur, len_app.
        rewrite <- !app_assoc, !Z.add_assoc. rewrite Hcur in H2.
        by repeat split.
Qed.

(** [change_spy] on an open sink. *)
Lemma change_spy_open new sf h s :
  h !! buf sf = Some s -> sk_closed s = false ->
  change_spy new (sf, h)
  = (Ok tt,
     (mkSpyFile (fileobj sf) new (max_size sf) (current_size sf),
      <[buf sf := s ++ [SkFlush; SkClose]]> h)).
Proof.
  intros Hs Hc. unfold change_spy, bind, buf_do, sink_do, set_buf; simpl.
  rewrite Hs, Hc. simpl. rewrite lookup_insert_eq, sk_closed_app, Hc. simpl.
  by rewrite insert_insert_eq, <- app_assoc.
Qed.

Lemma int_of_str_error s e : int_of_str s = Raise e -> e = ValueError.
Proof.
  unfold int_of_str.
  destruct (match skip_space s with
            | String "-"%char r => (true, r)
            | String "+"%char r => (false, r)
            | _ => (false, skip_space s)
            end) as [neg s2].
  destruct (skip_space s2) as [|a s3]; [by intros [= <-]|].
  destruct (digit_val a); [|by intros [= <-]].
  destruct (digits 0 (String a s3)) as [v rest].
  destruct (skip_space rest); [done | by intros [= <-]].
Qed.

(** A limit given as text never produces SizeLimitExceeded. *)
Lemma check_text s cur : is_size_limit (check (PyStr s) cur) = false.
Proof.
  unfold check. destruct (truthy (PyStr s)); [|done]. simpl.
  destruct (int_of_str s) as [m|e] eqn:E.
  - by destruct (m <? cur).
  - by rewrite (int_of_str_error s e E).
Qed.

Lemma exec_no_limit os : forall sf h,
  (forall cur, is_size_limit (check (max_size sf) cur) = false) ->
  forallb not_size_limit (exec os (sf, h)).1 = true.
Proof.
  induction os as [|o os IH]; intros sf h Hn; [done|].
  rewrite do_op_cons. destruct o as [c|l]; simpl.
  - destruct (do_call_any c sf h) as (Hm & _ & Hr).
    destruct (do_call c (sf, h)) as [r1 [sf1 h1]]; simpl in *.
    assert (is_size_limit r1 = false) as Hr1.
    { specialize (Hn (current_size sf1)).
      destruct Hr as [-> | [-> | ->]]; try done.
      by destruct (check (max_size sf) (current_size sf1)). }
    unfold not_size_limit at 1. rewrite Hr1. simpl.
    apply IH. by rewrite Hm.
  - destruct (change_spy_frame l sf h) as (_ & Hm & _).
    destruct (change_spy l (sf, h)) as [r1 [sf1 h1]]; simpl in *.
    apply IH. by rewrite Hm.
Qed.

End SpyFileMore.

(** ** readlines *)

(** X1.  [readlines] on an open sink, when the bytes left do not take the
    count past the limit (or no limit is in force): it returns exactly the
    lines of what the source had left, [split_lines] of it, in order.  Their
    concatenation is everything the source had left, none of them is empty,
    none has a line terminator before its last byte, and every one but the
    last ends with the terminator.  The source is at its end; the sink has
    received exactly those bytes and the counter has grown by their
    number. *)
Theorem readlines_returns_all_lines (sf : SpyFile) (h : Heap) :
  sink_open h (buf sf) = true ->
  (truthy (max_size sf) = false
   \/ exists M, max_size sf = PyInt M
        /\ current_size sf + len (remaining (fileobj sf)) <= M) ->
  let r := readlines (sf, h) in
  let lines := split_lines (remaining (fileobj sf)) in
  r.1 = Ok lines
  /\ concat lines = remaining (fileobj sf)
  /\ Forall (fun l => l <> []) lines
  /\ Forall (fun l => line_len l = length l) lines
  /\ (forall i l, lines !! i = Some l -> (S i < length lines)%nat ->
                  last l = Some NL)
  /\ remaining (fileobj r.2.1) = []
  /\ written r.2.2 (buf sf) = written h (buf sf) ++ remaining (fileobj sf)
  /\ current_size r.2.1 = current_size sf + len (remaining (fileobj sf)).
Proof.
  intros Ho Hlim r lines. subst r lines.
  change (readlines (sf, h))
    with (iter_lines (S (length (remaining (fileobj sf)))) (sf, h)).
  destruct (iter_lines_all (S (length (remaining (fileobj sf)))) sf h)
    as (H1 & H4 & _ & H6 & H7 & _); [lia | done | |].
  - intros x Hx. destruct Hlim as [Hf | (M & HM & Hle)].
    + by apply check_falsy.
    + rewrite HM. destruct (Z.eq_dec M 0) as [->|HM0]; [done|].
      rewrite (check_int _ _ HM0). destruct (Z.ltb_spec M x); [lia | done].
  - split; [done|].
    split; [apply split_lines_concat|].
    split; [apply split_lines_nonempty|].
    split; [apply split_lines_single|].
    split; [apply split_lines_terminated|].
    done.
Qed.

Lemma readlines_returns_all_lines_witness :
  let sf := mkSpyFile (source hello_world) 0%nat (PyInt 12) 0 in
  let h : Heap := <[0%nat := []]> ∅ in
  sink_open h (buf sf) = true
  /\ (readlines (sf, h)).1 = Ok [b "hello" ++ [NL]; b "world" ++ [NL]]
  /\ concat [b "hello" ++ [NL]; b "world" ++ [NL]] = hello_world.
Proof.
  intros sf h.
  assert (Ho : sink_open h (buf sf) = true) by (vm_compute; reflexivity).
  split; [exact Ho|].
  destruct (readlines_returns_all_lines sf h Ho
              ltac:(right; exists 12; split; [reflexivity | vm_compute; discriminate]))
    as (H1 & H2 & _).
  split; [exact H1 | exact H2].
Defined.

(** X2.  [readlines] on an open sink, under an integer limit in force,
    when the bytes left would take the count past the limit: it raises
    SizeLimitExceeded and returns no line at all.  What has left the source
    is exactly the lines read up to and including the first one that took
    the count past the limit, [read_until] of the lines left: the first
    [S k] lines, where none of the first [k] took the count past the limit.
    Those bytes, and no others, are in the sink and in the counter, which
    is past the limit. *)
Theorem readlines_raises_past_limit (sf : SpyFile) (h : Heap) (M : Z) :
  sink_open h (buf sf) = true ->
  max_size sf = PyInt M -> M <> 0 ->
  M < current_size sf + len (remaining (fileobj sf)) ->
  let r := readlines (sf, h) in
  let lines := split_lines (remaining (fileobj sf)) in
  let d := read_until M (current_size sf) lines in
  r.1 = Raise (SizeLimitExceeded (current_size sf + len d) M)
  /\ M < current_size sf + len d
  /\ (exists k : nat,
        d = concat (take (S k) lines)
        /\ forall j, (j < k)%nat ->
             current_size sf + len (concat (take (S j) lines)) <= M)
  /\ consumed (fileobj r.2.1) = consumed (fileobj sf) ++ d
  /\ written r.2.2 (buf sf) = written h (buf sf) ++ d
  /\ current_size r.2.1 = current_size sf + len d.
Proof.
  intros Ho HM HM0 Hover r lines d. subst r lines d.
  change (readlines (sf, h))
    with (iter_lines (S (length (remaining (fileobj sf)))) (sf, h)).
  destruct (iter_lines_limit (S (length (remaining (fileobj sf)))) sf h M)
    as (H1 & H2 & H3 & H4 & H5); try done; [lia|].
  split; [done|]. split; [done|].
  split; [apply read_until_spec|]. done.
Qed.

Lemma readlines_raises_past_limit_witness :
  let sf := mkSpyFile (source hello_world) 0%nat (PyInt 4) 0 in
  let h : Heap := <[0%nat := []]> ∅ in
  (sink_open h (buf sf) = true /\ max_size sf = PyInt 4 /\ 4 <> 0
   /\ 4 < current_size sf + len (remaining (fileobj sf)))
  /\ (readlines (sf, h)).1 = Raise (SizeLimitExceeded 6 4)
  /\ consumed (fileobj (readlines (sf, h)).2.1) = b "hello" ++ [NL].
Proof.
  intros sf h.
  assert (Ho : sink_open h (buf sf) = true) by (vm_compute; reflexivity).
  split; [split; [exact Ho | split; [reflexivity | split; [lia | vm_compute; reflexivity]]]|].
  destruct (readlines_raises_past_limit sf h 4 Ho eq_refl ltac:(lia)
              ltac:(vm_compute; reflexivity))
    as (H1 & _ & _ & H4 & _).
  split; [exact H1 | exact H4].
Defined.

(** ** Closed sinks *)

(** X3.  Once the sink attached to a SpyFile is closed, no method of the
    SpyFile gets it working again.  A read or readline still takes its
    bytes from the source and then raises ValueError: the bytes are
    neither returned, nor mirrored, nor counted.  [change_spy] raises
    ValueError at the flush and does not attach the new sink.  So through
    any sequence of calls every read and readline raises ValueError and
    the sink, the heap and the counter stay as they were. *)
Theorem closed_sink_is_permanent
    (sf : SpyFile) (h : Heap) (s : Sink) (c : call) (new : loc) (os : list op) :
  h !! buf sf = Some s -> sk_closed s = true ->
  let r1 := do_call c (sf, h) in
  let t := (src_answer c (fileobj sf)).1 in
  (r1.1 = Raise ValueError
   /\ consumed (fileobj r1.2.1) = consumed (fileobj sf) ++ t
   /\ current_size r1.2.1 = current_size sf
   /\ r1.2.2 = h)
  /\ change_spy new (sf, h) = (Raise ValueError, (sf, h))
  /\ (let r := exec os (sf, h) in
      Forall (fun x => x = Raise ValueError) r.1
      /\ buf r.2.1 = buf sf
      /\ current_size r.2.1 = current_size sf
      /\ r.2.2 = h).
Proof.
  intros Hs Hc r1 t. subst r1 t. split; [|split].
  - rewrite (do_call_closed c sf h s Hs Hc). simpl.
    by rewrite src_answer_consumed.
  - by apply (change_spy_closed new sf h s).
  - destruct (exec_closed os sf h s Hs Hc) as (H1 & H2 & _ & H4 & H5). done.
Qed.

Lemma closed_sink_is_permanent_witness :
  let sf := mkSpyFile (source hello_world) 0%nat PyNone 0 in
  let h : Heap := <[1%nat := []]> (<[0%nat := [SkClose]]> ∅) in
  (h !! buf sf = Some [SkClose] /\ sk_closed [SkClose] = true)
  /\ change_spy 1%nat (sf, h) = (Raise ValueError, (sf, h)).
Proof.
  split; [split; reflexivity|].
  exact (proj1 (proj2 (closed_sink_is_permanent
           (mkSpyFile (source hello_world) 0%nat PyNone 0)
           (<[1%nat := []]> (<[0%nat := [SkClose]]> ∅))
           [SkClose] (Read None) 1%nat [] eq_refl eq_refl))).
Defined.

(** X4.  [change_spy] called with the sink that is already attached closes
    it and attaches it again: the call itself succeeds, and from then on
    every read and readline raises ValueError, nothing more reaches the
    sink and the counter no longer moves. *)
Theorem change_spy_to_attached_sink
    (sf : SpyFile) (h : Heap) (s : Sink) (os : list op) :
  h !! buf sf = Some s -> sk_closed s = false ->
  let r0 := change_spy (buf sf) (sf, h) in
  r0.1 = Ok tt
  /\ buf r0.2.1 = buf sf
  /\ (let r := exec os r0.2 in
      Forall (fun x => x = Raise ValueError) r.1
      /\ buf r.2.1 = buf sf
      /\ current_size r.2.1 = current_size sf
      /\ written r.2.2 (buf sf) = written h (buf sf)).
Proof.
  intros Hs Hc r0. subst r0. rewrite (change_spy_open _ sf h s Hs Hc). simpl.
  split; [done|]. split; [done|].
  destruct (exec_closed os
              (mkSpyFile (fileobj sf) (buf sf) (max_size sf) (current_size sf))
              (<[buf sf := s ++ [SkFlush; SkClose]]> h)
              (s ++ [SkFlush; SkClose]))
    as (H1 & H2 & _ & H4 & H5).
  - simpl. by rewrite lookup_insert_eq.
  - unfold sk_closed. rewrite existsb_app. simpl. by rewrite orb_true_r.
  - simpl in *. rewrite H5. repeat split; try done.
    unfold written. rewrite lookup_insert_eq, Hs, sk_written_concat. simpl.
    by rewrite app_nil_r.
Qed.

Lemma change_spy_to_attached_sink_witness :
  let sf := mkSpyFile (source hello_world) 0%nat PyNone 0 in
  let h : Heap := <[0%nat := []]> ∅ in
  (h !! buf sf = Some [] /\ sk_closed [] = false)
  /\ Forall (fun x => x = Raise ValueError)
       (exec [Call (Read None); Call (Readline None)]
          (change_spy 0%nat (sf, h)).2).1.
Proof.
  split; [split; reflexivity|].
  exact (proj1 (proj2 (proj2 (change_spy_to_attached_sink
           (mkSpyFile (source hello_world) 0%nat PyNone 0)
           (<[0%nat := []]> ∅) [] [Call (Read None); Call (Readline None)]
           eq_refl eq_refl)))).
Defined.

(** ** Changing the sink in mid-stream *)

(** X5.  Changing the sink between two runs of calls splits the mirror
    without loss or repetition: the old sink holds what the first run
    took from the source, the new sink what the second run took, the
    source has given out the one followed by the other, and the counter
    has grown by both, whether or not some of the calls raised
    SizeLimitExceeded.  The old sink ends up closed. *)
Theorem sink_change_splits_mirror
    (sf : SpyFile) (h : Heap) (new : loc) (cs1 cs2 : list call) :
  sink_open h (buf sf) = true -> sink_open h new = true -> new <> buf sf ->
  let st1 := (run cs1 (sf, h)).2 in
  let st2 := (change_spy new st1).2 in
  let st3 := (run cs2 st2).2 in
  let d1 := concat (src_run cs1 (fileobj sf)).1 in
  let d2 := concat (src_run cs2 (fileobj st1.1)).1 in
  written st3.2 (buf sf) = written h (buf sf) ++ d1
  /\ written st3.2 new = written h new ++ d2
  /\ consumed (fileobj st3.1) = consumed (fileobj sf) ++ d1 ++ d2
  /\ current_size st3.1 = current_size sf + len d1 + len d2
  /\ buf st3.1 = new
  /\ sink_open st3.2 (buf sf) = false.
Proof.
  intros Ho Hn Hne st1 st2 st3 d1 d2.
  destruct (run_open cs1 sf h Ho)
    as (Hf1 & Hw1 & Hc1 & Hb1 & _ & Ho1 & Hfr1 & _).
  fold st1 in Hf1, Hw1, Hc1, Hb1, Ho1, Hfr1. fold d1 in Hw1, Hc1.
  destruct (src_run_consumed cs1 (fileobj sf)) as [Hcons1 _]. fold d1 in Hcons1.
  destruct st1 as [sf1 h1] eqn:E1. simpl in *.
  apply sink_open_Some in Ho1 as (s1 & Hs1 & Hcl1).
  rewrite <- Hb1 in Hs1.
  pose proof (change_spy_open new sf1 h1 s1 Hs1 Hcl1) as Hch.
  set (sf2 := mkSpyFile (fileobj sf1) new (max_size sf1) (current_size sf1)).
  set (h2 := <[buf sf1 := s1 ++ [SkFlush; SkClose]]> h1).
  assert (E2 : st2 = (sf2, h2)) by (unfold st2; by rewrite Hch).
  assert (Hn2 : sink_open h2 (buf sf2) = true).
  { unfold sink_open, h2. simpl. rewrite lookup_insert_ne by (by rewrite Hb1).
    rewrite Hfr1 by done. apply Hn. }
  destruct (run_open cs2 sf2 h2 Hn2)
    as (Hf3 & Hw3 & Hc3 & Hb3 & _ & _ & Hfr3 & _).
  rewrite <- E2 in Hf3, Hw3, Hc3, Hb3, Hfr3. fold st3 in Hf3, Hw3, Hc3, Hb3, Hfr3.
  simpl in Hf3, Hw3, Hc3, Hb3, Hfr3. fold d2 in Hw3, Hc3.
  destruct (src_run_consumed cs2 (fileobj sf1)) as [Hcons2 _]. fold d2 in Hcons2.
  assert (Hold : st3.2 !! buf sf = Some (s1 ++ [SkFlush; SkClose])).
  { rewrite Hfr3 by done. unfold h2. rewrite <- Hb1. by rewrite lookup_insert_eq. }
  repeat split.
  - unfold written at 1. rewrite Hold, sk_written_concat. simpl.
    rewrite app_nil_r. rewrite <- Hw1. unfold written. by rewrite <- Hb1, Hs1.
  - rewrite Hw3. f_equal. unfold written, h2.
    rewrite lookup_insert_ne by (by rewrite Hb1). by rewrite Hfr1.
  - by rewrite Hf3, Hcons2, Hf1, Hcons1, app_assoc.
  - rewrite Hc3, Hc1. lia.
  - done.
  - unfold sink_open. rewrite Hold. unfold sk_closed.
    rewrite existsb_app. simpl. by rewrite orb_true_r.
Qed.

Lemma sink_change_splits_mirror_witness :
  let sf := mkSpyFile (source hello_world) 0%nat PyNone 0 in
  let h : Heap := <[1%nat := []]> (<[0%nat := []]> ∅) in
  (sink_open h (buf sf) = true /\ sink_open h 1%nat = true /\ 1%nat <> buf sf)
  /\ buf (run [Read None]
            (change_spy 1%nat (run [Readline None] (sf, h)).2).2).2.1 = 1%nat.
Proof.
  split; [split; [reflexivity | split; [reflexivity | discriminate]]|].
  exact (proj1 (proj2 (proj2 (proj2 (proj2 (sink_change_splits_mirror
           (mkSpyFile (source hello_world) 0%nat PyNone 0)
           (<[1%nat := []]> (<[0%nat := []]> ∅)) 1%nat
           [Readline None] [Read None] eq_refl eq_refl ltac:(discriminate))))))).
Defined.

(** ** A limit given as text *)

(** X6.  When [max_size] is a non-empty string, SizeLimitExceeded is never
    raised.  If [int()] reads the string as [m], a read or readline that
    leaves the count at or below [m] returns its bytes, and one that takes
    it past [m] raises TypeError (the message is formatted with [%d] and
    the string); if [int()] rejects the string every call raises
    ValueError.  In each case the bytes have been mirrored and counted
    before the exception. *)
Theorem textual_limit_never_size_limit
    (s : string) (sf : SpyFile) (h : Heap) (c : call) (os : list op) :
  max_size sf = PyStr s -> s <> EmptyString ->
  sink_open h (buf sf) = true ->
  let t := (src_answer c (fileobj sf)).1 in
  let cur' := current_size sf + len t in
  let r := do_call c (sf, h) in
  r.1 = match int_of_str s with
        | Ok m => if m <? cur' then Raise TypeError else Ok t
        | Raise _ => Raise ValueError
        end
  /\ current_size r.2.1 = cur'
  /\ written r.2.2 (buf sf) = written h (buf sf) ++ t
  /\ forallb not_size_limit (exec os (sf, h)).1 = true.
Proof.
  intros Hs Hne Ho t cur' r.
  destruct (do_call_open_facts c sf h Ho) as (_ & _ & _ & Hcur & Hw & _ & _ & Hr).
  fold r t in Hcur, Hw, Hr. fold cur' in Hr.
  split; [|split; [done|split; [done|]]].
  - rewrite Hr, Hs. unfold check. destruct s as [|a s']; [done|]. simpl.
    destruct (int_of_str (String a s')) as [m|e] eqn:E.
    + by destruct (m <? cur').
    + by rewrite (int_of_str_error _ e E).
  - apply exec_no_limit. intros cur. rewrite Hs. apply check_text.
Qed.

Lemma textual_limit_never_size_limit_witness :
  let sf := mkSpyFile (source hello_world) 0%nat (PyStr "10") 0 in
  let h : Heap := <[0%nat := []]> ∅ in
  (max_size sf = PyStr "10" /\ "10"%string <> EmptyString
   /\ sink_open h (buf sf) = true)
  /\ (do_call (Read None) (sf, h)).1 = Raise TypeError.
Proof.
  split; [split; [reflexivity | split; [discriminate | reflexivity]]|].
  exact (proj1 (textual_limit_never_size_limit "10"
           (mkSpyFile (source hello_world) 0%nat (PyStr "10") 0)
           (<[0%nat := []]> ∅) (Read None) []
           eq_refl ltac:(discriminate) eq_refl)).
Defined.

(** * Further properties of MemFile *)

Section MemFileMore.

Import Mem.

#[local] Arguments write_at : simpl never.

Lemma memfile_eta m :
  mkMemFile (maxsize m) (tmpdir m) (prefix m) (suffix m) (_fileobj m) = m.
Proof. by destruct m. Qed.

Lemma write_at_end_twice (d1 d2 old : bytes) :
  write_at (length old + length d1) d2 (write_at (length old) d1 old)
  = write_at (length old) (d1 ++ d2) old.
Proof.
  rewrite !write_at_end. rewrite <- length_app, write_at_end.
  by rewrite app_assoc.
Qed.

(** Writing nothing to a buffer that is at its end and within its
    threshold changes nothing. *)
Lemma write_nothing st :
  at_end st.1 = true ->
  (in_memory st.1 = true -> tell st.1 <= maxsize st.1) ->
  (write [] st).2 = st.
Proof.
  destruct st as [m w]. unfold at_end, in_memory, tell. simpl.
  intros He Hin. rewrite write_unfold.
  destruct m as [T d p sfx [s|f]]; simpl in *.
  - specialize (Hin eq_refl). apply Nat.eqb_eq in He.
    destruct s as [bf ps]. simpl in *. subst ps.
    change (len []) with 0.
    destruct (Z.ltb_spec T (Z.of_nat (length bf) + 0)); [lia|]. simpl.
    unfold sio_write. simpl. by rewrite write_at_end, app_nil_r, Nat.add_0_r.
  - apply Nat.eqb_eq in He. destruct f as [fd nm dt ps]. simpl in *. subst ps.
    unfold file_write. simpl. by rewrite write_at_end, app_nil_r, Nat.add_0_r.
Qed.

(** Two writes in a row are one write of the two pieces joined. *)
Lemma file_write_at_end d f :
  f_pos f = length (f_data f) ->
  f_pos (file_write d f) = length (f_data (file_write d f)).
Proof.
  intros H. unfold file_write; simpl. by rewrite H, write_at_end, length_app.
Qed.

Lemma file_write_twice d1 d2 f :
  f_pos f = length (f_data f) ->
  file_write d2 (file_write d1 f) = file_write (d1 ++ d2) f.
Proof.
  intros H. unfold file_write; simpl.
  by rewrite H, write_at_end_twice, length_app, Nat.add_assoc.
Qed.

Lemma sio_write_twice d1 d2 s :
  sio_pos s = length (sio_buf s) ->
  sio_write d2 (sio_write d1 s) = sio_write (d1 ++ d2) s.
Proof.
  intros H. unfold sio_write; simpl.
  by rewrite H, write_at_end_twice, length_app, Nat.add_assoc.
Qed.

Lemma file_write_after_sio bf d f :
  f_pos f = length (f_data f) -> f_data f = [] ->
  file_write d (file_write bf f)
  = file_write (bf ++ d) f.
Proof. intros H _. by apply file_write_twice. Qed.

Ltac fields :=
  cbn [fst snd maxsize tmpdir prefix suffix _fileobj sio_pos sio_buf
       f_fd f_name f_data f_pos TemporaryFile] in *.

Lemma write_write d1 d2 st :
  at_end st.1 = true ->
  (in_memory st.1 = true -> tell st.1 <= maxsize st.1) ->
  (write d2 (write d1 st).2).2 = (write (d1 ++ d2) st).2.
Proof.
  destruct st as [[T d p sfx [[bf ps]|[fd nm dt ps]]] w];
    unfold at_end, in_memory, tell; fields; intros He%Nat.eqb_eq Hin; subst ps.
  - specialize (Hin eq_refl).
    pose proof (len_nonneg d1). pose proof (len_nonneg d2).
    rewrite (write_unfold d1), (write_unfold (d1 ++ d2)). fields.
    rewrite len_app.
    destruct (Z.ltb_spec T (Z.of_nat (length bf) + len d1)); fields.
    + destruct (Z.ltb_spec T (Z.of_nat (length bf) + (len d1 + len d2))); [|lia].
      rewrite write_unfold. fields.
      by rewrite (file_write_twice d1 d2) by (by apply file_write_at_end).
    + rewrite write_unfold. fields.
      assert (Hp : Z.of_nat (sio_pos (sio_write d1 (mkStringIO bf (length bf))))
                   = Z.of_nat (length bf) + len d1).
      { unfold sio_write, len; simpl. lia. }
      rewrite Hp.
      destruct (Z.ltb_spec T (Z.of_nat (length bf) + len d1 + len d2));
        destruct (Z.ltb_spec T (Z.of_nat (length bf) + (len d1 + len d2)));
        try lia; fields.
      * do 2 f_equal. f_equal.
        rewrite !file_write_twice by done. f_equal.
        unfold sio_write; simpl. by rewrite write_at_end, app_assoc.
      * by rewrite sio_write_twice.
  - rewrite (write_unfold d1), (write_unfold (d1 ++ d2)). fields.
    rewrite write_unfold. fields.
    by rewrite file_write_twice.
Qed.

(** A write keeps the buffer at its end and, when it leaves it in memory,
    within its threshold. *)
Lemma write_keeps_within d st :
  at_end st.1 = true ->
  at_end (write d st).2.1 = true
  /\ (in_memory (write d st).2.1 = true ->
      tell (write d st).2.1 <= maxsize (write d st).2.1).
Proof.
  intros He. destruct (write_appends d st He) as [Hc He1]. split; [done|].
  intros Hin. rewrite write_maxsize, (tell_at_end _ He1), Hc, len_app.
  destruct (migrates d st) eqn:Hm.
  - by rewrite (migrates_on_disk d st Hm) in Hin.
  - rewrite migrates_eq in Hm. rewrite <- (tell_at_end _ He).
    destruct (in_memory st.1) eqn:Hi.
    + simpl in Hm. by apply Z.ltb_ge in Hm.
    + by rewrite (write_on_disk d st Hi) in Hin.
Qed.

(** What a write does to the world. *)
Lemma write_world d st :
  fs (write d st).2.2 = fs st.2
  /\ log (write d st).2.2 = log st.2
  /\ (if migrates d st
      then fds (write d st).2.2 = {[fresh (fds st.2)]} ∪ fds st.2
           /\ handle (write d st).2.1 = Some (fresh (fds st.2))
      else (write d st).2.2 = st.2
           /\ handle (write d st).2.1 = handle st.1).
Proof.
  rewrite migrates_eq. destruct st as [m w]. rewrite write_unfold.
  unfold in_memory, tell, handle. simpl.
  destruct (_fileobj m) as [s|f]; simpl; [|done].
  by destruct (maxsize m <? Z.of_nat (sio_pos s) + len d).
Qed.

Lemma writelines_on_disk ds : forall st,
  in_memory st.1 = false -> in_memory (writelines ds st).2.1 = false.
Proof.
  induction ds as [|d ds IH]; intros st Hd; [done|].
  rewrite writelines_cons. apply IH. by apply write_on_disk.
Qed.

End MemFileMore.

(** X7.  On a buffer that has only been written to and is within its
    threshold (or already on disk), [writelines(lines)] leaves exactly the
    state that the single call [write] of the lines joined leaves: the
    same backing, content and position, and the same world. *)
Theorem writelines_is_write_of_join (st : Mem.St) (lines : list bytes) :
  Mem.at_end st.1 = true ->
  (Mem.in_memory st.1 = true -> Mem.tell st.1 <= Mem.maxsize st.1) ->
  (Mem.writelines lines st).2 = (Mem.write (concat lines) st).2.
Proof.
  revert st. induction lines as [|d ds IH]; intros st He Hin.
  - simpl. symmetry. by apply write_nothing.
  - rewrite writelines_cons. simpl.
    destruct (write_keeps_within d st He) as [He1 Hin1].
    rewrite (IH _ He1 Hin1). by apply write_write.
Qed.

Lemma writelines_is_write_of_join_witness :
  let st : Mem.St := (Mem.new 8, mkWorld ∅ ∅ []) in
  (Mem.at_end st.1 = true
   /\ (Mem.in_memory st.1 = true -> Mem.tell st.1 <= Mem.maxsize st.1))
  /\ (Mem.writelines [b "hello"; b ", "; b "world"] st).2
     = (Mem.write (concat [b "hello"; b ", "; b "world"]) st).2.
Proof.
  split; [split; [reflexivity | intros _; vm_compute; discriminate]|].
  exact (writelines_is_write_of_join (Mem.new 8, mkWorld ∅ ∅ [])
           [b "hello"; b ", "; b "world"] eq_refl
           ltac:(intros _; vm_compute; discriminate)).
Defined.

(** X8.  What the delegated attributes give after any history of writes on
    a fresh buffer with threshold [T >= 0]: [tell()] is the total length
    written, before and after the move to disk; [getvalue()] returns the
    bytes written as long as the total is within [T], and raises
    AttributeError once the buffer is on disk (a [file] has no
    [getvalue]), leaving the buffer as it was. *)
Theorem delegation_across_migration (T : Z) (w : World) (ds : list bytes) :
  0 <= T ->
  let st := (Mem.writelines ds (Mem.new T, w)).2 in
  Mem.tell st.1 = len (concat ds)
  /\ Mem.getvalue st
     = (if len (concat ds) <=? T then Ok (concat ds) else Raise AttributeError,
        st).
Proof.
  intros HT st.
  assert (Hi0 : Mem.in_memory (Mem.new T, w).1 = true
                <-> len (Mem.contents (Mem.new T, w).1) <= Mem.maxsize (Mem.new T, w).1).
  { simpl. unfold len. simpl. split; [lia | done]. }
  destruct (writelines_spec ds (Mem.new T, w) eq_refl Hi0) as (_ & _ & He & Hc & Hi).
  fold st in He, Hc, Hi. simpl in Hc, Hi. rewrite Hc in Hi.
  split; [by rewrite (tell_at_end _ He), Hc|].
  destruct st as [m w']. unfold Mem.getvalue, Mem.contents, Mem.in_memory in *.
  simpl in *. destruct (Mem._fileobj m) as [s|f]; simpl in *.
  - rewrite Hc. destruct (Z.leb_spec (len (concat ds)) T); [done|].
    destruct Hi as [Hi _]. specialize (Hi eq_refl). lia.
  - destruct (Z.leb_spec (len (concat ds)) T); [|done].
    destruct Hi as [_ Hi]. by specialize (Hi ltac:(done)).
Qed.

Lemma delegation_across_migration_witness :
  0 <= 4
  /\ (Mem.getvalue (Mem.writelines [b "hel"; b "lo"] (Mem.new 4, mkWorld ∅ ∅ [])).2).1
     = Raise AttributeError.
Proof.
  split; [lia|].
  exact (f_equal fst (proj2 (delegation_across_migration 4 (mkWorld ∅ ∅ [])
                               [b "hel"; b "lo"] ltac:(lia)))).
Defined.

(** X9.  Writing never touches a path or the log.  Over any sequence of
    writes from any state, the directory and the log stay as they were;
    either the whole world is unchanged and the buffer holds the handle it
    held, or the buffer has moved from memory to disk and exactly one
    descriptor, a new one, has been opened and is the buffer's handle. *)
Theorem writes_open_at_most_one_file (st : Mem.St) (ds : list bytes) :
  let st' := (Mem.writelines ds st).2 in
  fs st'.2 = fs st.2
  /\ log st'.2 = log st.2
  /\ ((st'.2 = st.2 /\ Mem.handle st'.1 = Mem.handle st.1)
      \/ (Mem.in_memory st.1 = true /\ Mem.in_memory st'.1 = false
          /\ fds st'.2 = {[fresh (fds st.2)]} ∪ fds st.2
          /\ (fresh (fds st.2) ∉ fds st.2)
          /\ Mem.handle st'.1 = Some (fresh (fds st.2)))).
Proof.
  revert st. induction ds as [|d ds IH]; intros st st'; subst st'.
  - simpl. split; [done|]. split; [done|]. by left.
  - rewrite writelines_cons.
    destruct (write_world d st) as (Hfs & Hlog & Hmig).
    destruct (IH (Mem.write d st).2) as (Hfs' & Hlog' & Hcase).
    rewrite Hfs', Hlog', Hfs, Hlog. split; [done|]. split; [done|].
    destruct (Mem.migrates d st) eqn:Em.
    + destruct Hmig as [Hfd Hh]. right.
      pose proof (migrates_on_disk d st Em) as Hd.
      assert (Hin : Mem.in_memory st.1 = true).
      { unfold Mem.migrates in Em. by apply andb_true_iff in Em as [-> _]. }
      destruct Hcase as [[Hw' Hh'] | (Hc & _)]; [|congruence].
      rewrite Hw', Hh'. repeat split; try done.
      * by apply writelines_on_disk.
      * apply is_fresh.
    + destruct Hmig as [Hw Hh]. rewrite Hw, Hh in Hcase.
      destruct Hcase as [Hl | (H1 & H2 & H3 & H4 & H5)]; [by left|].
      right. repeat split; try done.
      destruct (Mem.in_memory st.1) eqn:Hi; [done|].
      by rewrite (write_on_disk d st Hi) in H1.
Qed.

(** X10.  [close] cannot be called twice on a buffer that moved to disk:
    whatever the first call did, the path it tried to remove does not
    exist afterwards, so the second call raises OSError. *)
Theorem close_twice_fails (m : Mem.MemFile) (w : World) :
  Mem.in_memory m = false ->
  (Mem.close (Mem.close (m, w)).2).1 = Raise OSError.
Proof.
  unfold Mem.in_memory, Mem.close, bind, get; simpl.
  destruct (Mem._fileobj m) as [s|f] eqn:E; [done|]. intros _. simpl.
  unfold os_unlink, logging_info; simpl.
  destruct (bool_decide (f_name f ∈ fs w)) eqn:Hin; simpl; rewrite E; simpl.
  - rewrite bool_decide_eq_false_2; [done|].
    rewrite elem_of_difference, elem_of_singleton. by intros [_ ?].
  - by rewrite Hin.
Qed.

Lemma close_twice_fails_witness :
  let st := (Mem.write (b "hello")
               (Mem.new 4, mkWorld {[ "<fdopen>"%string ]} ∅ [])).2 in
  Mem.in_memory st.1 = false
  /\ (Mem.close st).1 = Ok tt
  /\ (Mem.close (Mem.close st).2).1 = Raise OSError.
Proof.
  split; [reflexivity|]. split; [vm_compute; reflexivity|].
  exact (close_twice_fails
           (Mem.write (b "hello")
              (Mem.new 4, mkWorld {[ "<fdopen>"%string ]} ∅ [])).2.1
           (Mem.write (b "hello")
              (Mem.new 4, mkWorld {[ "<fdopen>"%string ]} ∅ [])).2.2
           eq_refl).
Defined.

(** X11.  With a negative [maxsize] the very first write moves the buffer
    to disk, whatever is written, the empty string included. *)
Theorem negative_maxsize_migrates_at_once (T : Z) (w : World) (data : bytes) :
  T < 0 ->
  let st := (Mem.write data (Mem.new T, w)).2 in
  Mem.migrates data (Mem.new T, w) = true
  /\ Mem.in_memory st.1 = false
  /\ Mem.contents st.1 = data.
Proof.
  intros HT st. subst st.
  assert (Hm : Mem.migrates data (Mem.new T, w) = true).
  { rewrite migrates_eq. simpl. pose proof (len_nonneg data).
    apply Z.ltb_lt. unfold Mem.tell. simpl. lia. }
  split; [done|]. split; [by apply migrates_on_disk|].
  by destruct (migrating_write data (Mem.new T, w) Hm) as (_ & _ & _ & ->).
Qed.

Lemma negative_maxsize_migrates_at_once_witness :
  -1 < 0
  /\ Mem.in_memory (Mem.write [] (Mem.new (-1), mkWorld ∅ ∅ [])).2.1 = false.
Proof.
  split; [lia|].
  exact (proj1 (proj2 (negative_maxsize_migrates_at_once (-1) (mkWorld ∅ ∅ []) []
                         ltac:(lia)))).
Defined.

(** * Further properties of fileiter *)

Section FileiterMore.

Lemma src_read_data n f : src_data (src_read n f).2 = src_data f.
Proof. done. Qed.

Lemma src_read_consumed n f :
  consumed (src_read n f).2 = consumed f ++ (src_read n f).1.
Proof. apply src_take_consumed. Qed.

(** A negative size asks for everything that is left. *)
Lemma src_read_negative n f :
  n < 0 ->
  (src_read (Some n) f).1 = remaining f
  /\ remaining (src_read (Some n) f).2 = [].
Proof.
  intros Hn. rewrite src_read_remaining.
  unfold src_read, src_take, clip; simpl.
  destruct (Z.ltb_spec n 0); [|lia].
  rewrite firstn_all. split; [done|]. by rewrite skipn_all.
Qed.

Opaque src_read.

(** Where the generator leaves the file: past the bytes it yielded and no
    further. *)
Lemma drain_position fuel : forall g,
  remaining (file (drain fuel g).2)
  = drop (length (concat (drain fuel g).1)) (remaining (file g))
  /\ consumed (file (drain fuel g).2)
     = consumed (file g) ++ concat (drain fuel g).1
  /\ src_data (file (drain fuel g).2) = src_data (file g).
Proof.
  induction fuel as [|fuel IH]; intros g.
  { simpl. by rewrite app_nil_r. }
  simpl. destruct (pc_cases g) as [E|E].
  { unfold next. rewrite E. simpl. by rewrite app_nil_r. }
  rewrite (next_unfold g E).
  destruct (yielded g <? size g); [|simpl; by rewrite app_nil_r].
  cbn zeta.
  pose proof (src_read_remaining
                (Some (Z.min (size g - yielded g) (chunk_size g))) (file g)) as Hrem.
  pose proof (src_read_consumed
                (Some (Z.min (size g - yielded g) (chunk_size g))) (file g)) as Hcons.
  pose proof (src_read_data
                (Some (Z.min (size g - yielded g) (chunk_size g))) (file g)) as Hdata.
  destruct (src_read _ _) as [t f']. cbn [fst snd] in *.
  destruct t as [|x t].
  - cbn [fst snd file concat]. rewrite Hrem, Hcons, Hdata. simpl.
    by rewrite app_nil_r.
  - match goal with
    | |- context [drain fuel ?g1] =>
        destruct (IH g1) as (H1 & H2 & H3); destruct (drain fuel g1) as [cs g2]
    end.
    cbn [fst snd file concat] in *.
    rewrite H1, H2, H3, Hrem, Hcons, Hdata, drop_drop, length_app.
    by rewrite app_assoc.
Qed.

(** When the file holds the [size] bytes asked for, every read is served
    in full and no read follows the last chunk. *)
Lemma drain_requests fuel : forall g,
  (length (remaining (file g)) < fuel)%nat ->
  pc g <> Finished ->
  0 < chunk_size g -> 0 <= yielded g <= size g ->
  size g - yielded g <= len (remaining (file g)) ->
  requests (file (drain fuel g).2)
  = requests (file g) ++ map (fun c => Some (len c)) (drain fuel g).1.
Proof.
  induction fuel as [|fuel IH]; intros g Hlt Hpc HC Hy Hav; [lia|]. simpl.
  rewrite (next_unfold g Hpc).
  destruct (Z.ltb_spec (yielded g) (size g)); cbn zeta.
  - set (n := Z.min (size g - yielded g) (chunk_size g)).
    assert (Hn : 0 < n) by (unfold n; lia).
    pose proof (src_read_length n (file g) ltac:(lia)) as Hl.
    pose proof (src_read_remaining (Some n) (file g)) as Hrem.
    pose proof (src_read_requests (Some n) (file g)) as Hq.
    destruct (src_read (Some n) (file g)) as [t f']. cbn [fst snd] in *.
    assert (Hlen : len t = n).
    { unfold len in *. rewrite Hl. unfold n in *. lia. }
    destruct t as [|x t]; [unfold len in Hlen; simpl in Hlen; clearbody n; lia|].
    match goal with
    | |- context [drain fuel ?g1] =>
        specialize (IH g1); destruct (drain fuel g1) as [cs g2]
    end.
    cbn [fst snd file map] in *.
    rewrite IH, Hq, Hlen, <- app_assoc; [done | | done | done | |].
    + rewrite Hrem, length_drop. unfold len in Hlen. simpl in Hl |- *. lia.
    + rewrite yielded_at_yield. cbn [size]. unfold n in *. lia.
    + rewrite yielded_at_yield, Hrem. cbn [size]. unfold len in *.
      rewrite length_drop. unfold n in *. lia.
  - cbn [fst snd file map]. by rewrite app_nil_r.
Qed.

Transparent src_read.

End FileiterMore.

(** X12.  [fileiter] takes from the file what it yields and nothing more:
    for a size [N >= 0] and a chunk size [C > 0], when the iteration has
    ended the file has given out exactly the first [N] bytes it had left
    (all of them if there were fewer), and whatever follows them is still
    to be read. *)
Theorem fileiter_leaves_rest_unread (f : Source) (N C : Z) :
  0 <= N -> 0 < C ->
  let r := chunks (fileiter f N C) in
  remaining (file r.2) = drop (Z.to_nat N) (remaining f)
  /\ consumed (file r.2) = consumed f ++ take (Z.to_nat N) (remaining f)
  /\ src_data (file r.2) = src_data f.
Proof.
  intros HN HC r. subst r. unfold chunks.
  destruct (drain_position (S (length (remaining (file (fileiter f N C)))))
              (fileiter f N C)) as (H1 & H2 & H3).
  destruct (drain_chunks (S (length (remaining (file (fileiter f N C)))))
              (fileiter f N C)) as [Hc _];
    [lia | done | done | unfold fileiter, yielded; simpl; lia |].
  rewrite H1, H2, H3, Hc. simpl. rewrite Z.sub_0_r.
  split; [|done].
  rewrite length_take.
  destruct (Nat.min_spec (Z.to_nat N) (length (remaining f))) as [[_ ->]|[Hle ->]];
    [done|].
  by rewrite !drop_ge by lia.
Qed.

Lemma fileiter_leaves_rest_unread_witness :
  (0 <= 5 /\ 0 < 2)
  /\ remaining (file (chunks (fileiter (source hello_world) 5 2)).2)
     = drop 5 hello_world.
Proof.
  split; [lia|].
  exact (proj1 (fileiter_leaves_rest_unread (source hello_world) 5 2
                  ltac:(lia) ltac:(lia))).
Defined.

(** X13.  When the file holds at least the [N] bytes asked for ([N >= 0],
    chunk size [C > 0]), [fileiter] issues exactly one read per chunk,
    each asking for precisely the number of bytes it then yields, and no
    read after the last chunk; the chunks add up to [N] bytes. *)
Theorem fileiter_reads_once_per_chunk (f : Source) (N C : Z) :
  0 <= N -> 0 < C -> N <= len (remaining f) ->
  let r := chunks (fileiter f N C) in
  requests (file r.2) = requests f ++ map (fun c => Some (len c)) r.1
  /\ len (concat r.1) = N.
Proof.
  intros HN HC Hav r. subst r. unfold chunks. split.
  - apply (drain_requests _ (fileiter f N C)); simpl; try done; try lia.
    all: unfold yielded; simpl; lia.
  - destruct (drain_chunks (S (length (remaining (file (fileiter f N C)))))
                (fileiter f N C)) as [-> _];
      [lia | done | done | unfold fileiter, yielded; simpl; lia |].
    simpl. rewrite Z.sub_0_r. unfold len in *. rewrite length_take. lia.
Qed.

Lemma fileiter_reads_once_per_chunk_witness :
  (0 <= 5 /\ 0 < 2 /\ 5 <= len (remaining (source hello_world)))
  /\ requests (file (chunks (fileiter (source hello_world) 5 2)).2)
     = [Some 2; Some 2; Some 1].
Proof.
  split; [split; [lia | split; [lia | vm_compute; discriminate]]|].
  exact (proj1 (fileiter_reads_once_per_chunk (source hello_world) 5 2
                  ltac:(lia) ltac:(lia) ltac:(vm_compute; discriminate))).
Defined.

(** X14.  With a negative [chunk_size] and a positive [size] the first
    read asks for a negative number of bytes, which a file takes as
    everything it has: the whole rest of a non-empty file is yielded as
    one chunk, however much longer than [size] it is, and the iteration
    ends there. *)
Theorem fileiter_negative_chunk_size (f : Source) (N C : Z) :
  0 < N -> C < 0 -> remaining f <> [] ->
  let r := chunks (fileiter f N C) in
  r.1 = [remaining f]
  /\ pc r.2 = Finished
  /\ remaining (file r.2) = []
  /\ yielded r.2 = len (remaining f).
Proof.
  intros HN HC Hne r. subst r. unfold chunks.
  destruct (remaining f) as [|x l] eqn:Erem; [done|].
  change (file (fileiter f N C)) with f. rewrite Erem.
  change (S (length (x :: l))) with (S (S (length l))).
  destruct (src_read_negative C f HC) as [Ht Hr].
  rewrite Erem in Ht.
  cbn [drain]. rewrite (next_unfold (fileiter f N C)) by done.
  change (yielded (fileiter f N C)) with 0.
  change (size (fileiter f N C)) with N.
  change (chunk_size (fileiter f N C)) with C.
  change (file (fileiter f N C)) with f.
  destruct (Z.ltb_spec 0 N); [|lia]. cbn zeta.
  replace (Z.min (N - 0) C) with C by lia.
  destruct (src_read (Some C) f) as [t f1]. cbn [fst snd] in *. subst t.
  set (g1 := mkFrame f1 N C 0 (AtYield (x :: l))).
  rewrite (next_unfold g1) by done.
  change (yielded g1) with (0 + len (x :: l)).
  change (size g1) with N. change (chunk_size g1) with C.
  change (file g1) with f1.
  destruct (Z.ltb_spec (0 + len (x :: l)) N); cbn zeta.
  - replace (Z.min (N - (0 + len (x :: l))) C) with C by lia.
    destruct (src_read_negative C f1 HC) as [Ht1 Hr1].
    rewrite Hr in Ht1.
    destruct (src_read (Some C) f1) as [t2 f2]. cbn [fst snd] in *. subst t2.
    cbn [fst snd pc file]. by rewrite Hr1.
  - cbn [fst snd pc file]. by rewrite Hr.
Qed.

Lemma fileiter_negative_chunk_size_witness :
  (0 < 3 /\ -1 < 0 /\ remaining (source hello_world) <> [])
  /\ (chunks (fileiter (source hello_world) 3 (-1))).1 = [hello_world].
Proof.
  split; [split; [lia | split; [lia | discriminate]]|].
  exact (proj1 (fileiter_negative_chunk_size (source hello_world) 3 (-1)
                  ltac:(lia) ltac:(lia) ltac:(discriminate))).
Defined.

(** * Properties of DummyFilePool *)

Section PoolFacts.

Lemma string_app_cons a (s1 s2 : string) :
  String a s1 +:+ s2 = String a (s1 +:+ s2).
Proof. reflexivity. Qed.

Lemma string_app_nil (s : string) : EmptyString +:+ s = s.
Proof. reflexivity. Qed.

Lemma string_length_app (s1 s2 : string) :
  String.length (s1 +:+ s2) = (String.length s1 + String.length s2)%nat.
Proof.
  induction s1 as [|a s1 IH]; [done|].
  rewrite string_app_cons. cbn [String.length]. by rewrite IH.
Qed.

Lemma string_app_inj_r (s1 s2 suf : string) :
  s1 +:+ suf = s2 +:+ suf -> s1 = s2.
Proof.
  revert s2. induction s1 as [|a s1 IH]; intros [|c s2] H;
    rewrite ?string_app_cons, ?string_app_nil in H.
  - done.
  - apply (f_equal String.length) in H. cbn [String.length] in H.
    rewrite string_length_app in H. lia.
  - apply (f_equal String.length) in H. cbn [String.length] in H.
    rewrite string_length_app in H. lia.
  - injection H as -> H. f_equal. by apply IH.
Qed.

(** Different counters give different file names. *)
Lemma record_name_inj (c1 c2 : Z) : record_name c1 = record_name c2 -> c1 = c2.
Proof.
  unfold record_name. intros H.
  apply (inj (String.append "/tmp/record-")) in H.
  apply string_app_inj_r in H. by apply (inj pretty) in H.
Qed.

(** The search only looks at the names from the counter upwards. *)
Lemma free_counter_ext passes : forall names1 names2 c,
  (forall k, c <= k -> record_name k ∈ names1 <-> record_name k ∈ names2) ->
  free_counter passes names1 c = free_counter passes names2 c.
Proof.
  induction passes as [|n IH]; intros names1 names2 c Hext; [done|]. simpl.
  destruct (decide (record_name c ∈ names1)) as [H1|H1].
  - rewrite !bool_decide_eq_true_2; [|by apply Hext; [lia|] | done].
    apply IH. intros k Hk. apply Hext. lia.
  - rewrite !bool_decide_eq_false_2; [done| |done].
    intros H2. apply H1. apply Hext; [lia | done].
Qed.

(** With more passes than there are paths the search ends on a name that
    does not exist, the first such from the counter upwards. *)
Lemma free_counter_spec passes : forall (names : gset string) c,
  (base.size names < passes)%nat ->
  let c' := free_counter passes names c in
  (record_name c' ∉ names)
  /\ c <= c'
  /\ (forall k, c <= k < c' -> record_name k ∈ names).
Proof.
  induction passes as [|n IH]; intros names c Hlt c'; subst c'; [lia|]. simpl.
  destruct (decide (record_name c ∈ names)) as [Hin|Hin].
  - rewrite bool_decide_eq_true_2 by done.
    rewrite (free_counter_ext n names (names ∖ {[record_name c]}) (c + 1)).
    + destruct (IH (names ∖ {[record_name c]}) (c + 1)) as (H1 & H2 & H3).
      * assert (base.size names
                = S (base.size (names ∖ {[record_name c]}))) as Hs.
        { rewrite (union_difference_singleton_L (record_name c) names Hin) at 1.
          rewrite size_union, size_singleton; [done|].
          intros y Hy1%elem_of_singleton Hy2%elem_of_difference.
          destruct Hy2 as [_ Hy2]. by apply Hy2, elem_of_singleton. }
        lia.
      * split; [|split].
        -- intros Hc. apply H1. apply elem_of_difference. split; [done|].
           rewrite elem_of_singleton. intros Heq%record_name_inj. lia.
        -- lia.
        -- intros k Hk. destruct (decide (k = c)) as [->|Hne]; [done|].
           assert (record_name k ∈ names ∖ {[record_name c]}) as Hk'
             by (apply H3; lia).
           by apply elem_of_difference in Hk' as [? _].
    + intros k Hk. rewrite elem_of_difference, elem_of_singleton. split.
      * intros Hkin. split; [done|]. intros Heq%record_name_inj. lia.
      * by intros [? _].
  - rewrite bool_decide_eq_false_2 by done.
    split; [done|]. split; [lia|]. intros k Hk. lia.
Qed.

Lemma get_file_facts (st : DummyFilePool * World) :
  let r := get_file st in
  (record_name (counter r.2.1) ∉ fs st.2)
  /\ counter st.1 <= counter r.2.1
  /\ fs r.2.2 = {[record_name (counter r.2.1)]} ∪ fs st.2.
Proof.
  destruct st as [p w]. unfold get_file, open_w. simpl.
  destruct (free_counter_spec (S (base.size (fs w))) (fs w) (counter p))
    as (H1 & H2 & _); [lia|].
  done.
Qed.

End PoolFacts.

(** X15.  [get_file] never hands out a path that exists: for every pool
    and every directory it returns an empty file, opened under the first
    name [/tmp/record-<n>.arc.gz], counting up from the pool's counter,
    that does not exist; the pool's counter is then that [n], and the only
    change to the directory is the new path. *)
Theorem get_file_returns_first_free_name (p : DummyFilePool) (w : World) :
  let r := get_file (p, w) in
  let n := counter r.2.1 in
  r.1 = Ok (mkFile (fresh (fds w)) (record_name n) [] 0)
  /\ (record_name n ∉ fs w)
  /\ counter p <= n
  /\ (forall k, counter p <= k < n -> record_name k ∈ fs w)
  /\ fs r.2.2 = {[record_name n]} ∪ fs w.
Proof.
  intros r n. subst r n. unfold get_file, open_w. simpl.
  destruct (free_counter_spec (S (base.size (fs w))) (fs w) (counter p))
    as (H1 & H2 & H3); [lia|].
  done.
Qed.

(** X16.  Two calls of [get_file] in a row never return the same path:
    the second name differs from the first, the counter has moved on, and
    neither path existed before the first call. *)
Theorem get_file_twice_distinct (p : DummyFilePool) (w : World) :
  let r1 := get_file (p, w) in
  let r2 := get_file r1.2 in
  record_name (counter r2.2.1) <> record_name (counter r1.2.1)
  /\ counter r1.2.1 < counter r2.2.1
  /\ (record_name (counter r1.2.1) ∉ fs w)
  /\ (record_name (counter r2.2.1) ∉ fs w).
Proof.
  intros r1 r2.
  destruct (get_file_facts (p, w)) as (Hf1 & Hn1 & Hw1).
  fold r1 in Hf1, Hn1, Hw1. cbn [fst snd] in Hf1, Hn1, Hw1.
  destruct (get_file_facts r1.2) as (Hf2 & Hn2 & Hw2).
  fold r2 in Hf2, Hn2, Hw2. rewrite Hw1 in Hf2.
  apply not_elem_of_union in Hf2 as [Hne%not_elem_of_singleton Hout].
  repeat split; try done.
  assert (counter r2.2.1 <> counter r1.2.1) by (intros Heq; by rewrite Heq in Hne).
  lia.
Qed.
